(** * gonfic: layered configuration as flat maps of dotted keys

    A shallow embedding of [gonfic.go] (the third, most recent version of the
    package in the source file, unless noted otherwise) and the lemmas that
    settle its specification. *)

From Stdlib Require Import String Ascii List ZArith Bool Permutation Sorted Lia.
From Stdlib Require Import OrdersEx RelationClasses.
Import ListNotations.
Open Scope string_scope.
Set Warnings "-register-all".

(* ================================================================= *)
(** ** Strings: the helpers of package [strings] used by the code *)

Definition dot : ascii := "."%char.

(** [strings.Split(s, ".")], i.e. [dotSlicer]: never returns the empty list. *)
Fixpoint dotSlicer (s : string) : list string :=
  match s with
  | EmptyString => [EmptyString]
  | String c s' =>
      let segs := dotSlicer s' in
      if Ascii.eqb c dot then EmptyString :: segs
      else match segs with
           | seg :: rest => String c seg :: rest
           | [] => [String c EmptyString]
           end
  end.

(** [strings.Join(a, ".")], i.e. [dotJoiner]. *)
Fixpoint dotJoiner (a : list string) : string :=
  match a with
  | [] => EmptyString
  | [x] => x
  | x :: xs => x ++ "." ++ dotJoiner xs
  end.

(** [strings.HasPrefix(s, p)]. *)
Definition HasPrefix (s p : string) : bool := String.prefix p s.

(** [strings.TrimPrefix(s, p)]. *)
Definition TrimPrefix (s p : string) : string :=
  if HasPrefix s p then substring (String.length p) (String.length s - String.length p) s
  else s.

(** [strings.ToLower], on the ASCII letters (the names in the claims are ASCII). *)
Definition lower_ascii (c : ascii) : ascii :=
  let n := nat_of_ascii c in
  if (65 <=? n)%nat && (n <=? 90)%nat then ascii_of_nat (n + 32)%nat else c.

Fixpoint ToLower (s : string) : string :=
  match s with
  | EmptyString => EmptyString
  | String c s' => String (lower_ascii c) (ToLower s')
  end.

(** [strings.Replace(s, "_", ".", -1)]. *)
Fixpoint ReplaceUnderscoreDot (s : string) : string :=
  match s with
  | EmptyString => EmptyString
  | String c s' => String (if Ascii.eqb c "_"%char then dot else c) (ReplaceUnderscoreDot s')
  end.

(** [strings.SplitN(env, "=", 2)]: one piece when there is no ['='], two otherwise. *)
Fixpoint SplitN2Eq (s : string) : list string :=
  match s with
  | EmptyString => [EmptyString]
  | String c s' =>
      if Ascii.eqb c "="%char then [EmptyString; s']
      else match SplitN2Eq s' with
           | [k] => [String c k]
           | k :: rest => String c k :: rest
           | [] => [String c EmptyString]
           end
  end.

(** Whether a string contains the joiner ['.']. *)
Fixpoint has_dot (s : string) : bool :=
  match s with
  | EmptyString => false
  | String c s' => Ascii.eqb c dot || has_dot s'
  end.

(** Whether a string contains the character [c]. *)
Fixpoint has_char (c : ascii) (s : string) : bool :=
  match s with
  | EmptyString => false
  | String c' s' => Ascii.eqb c' c || has_char c s'
  end.

(** An upper-case ASCII letter, the characters [lower_ascii] changes. *)
Definition is_upper (c : ascii) : bool :=
  let n := nat_of_ascii c in (65 <=? n)%nat && (n <=? 90)%nat.

Fixpoint has_upper (s : string) : bool :=
  match s with
  | EmptyString => false
  | String c s' => is_upper c || has_upper s'
  end.

(* ================================================================= *)
(** ** Go maps

    A Go [map[string]T] is a finite partial function; we represent it by its
    canonical form, the association list sorted by strictly increasing key
    (order [String_as_OT.lt]).  Go's map equality (same keys, equal values) is
    then Rocq's [=] on canonical forms.  The order in which [range] visits a
    map is unspecified in Go; it is modelled separately (any permutation of
    the entries). *)

Definition skey_lt (a b : string) : Prop := String_as_OT.lt a b.

Section GoMap.
Context {A : Type}.

Definition gomap := list (string * A).

Fixpoint lookup (k : string) (m : gomap) : option A :=
  match m with
  | [] => None
  | (k', v) :: m' => if String.eqb k k' then Some v else lookup k m'
  end.

(** [m[k] = v] *)
Fixpoint insert (k : string) (v : A) (m : gomap) : gomap :=
  match m with
  | [] => [(k, v)]
  | (k', v') :: m' =>
      match String_as_OT.compare k k' with
      | Eq => (k, v) :: m'
      | Lt => (k, v) :: m
      | Gt => (k', v') :: insert k v m'
      end
  end.

(** Writing the entries of a list one after the other (later ones win). *)
Fixpoint insert_all (l : list (string * A)) (m : gomap) : gomap :=
  match l with
  | [] => m
  | (k, v) :: l' => insert_all l' (insert k v m)
  end.

(** The canonical-form invariant. *)
Definition canonical (m : gomap) : Prop :=
  StronglySorted (fun a b => skey_lt (fst a) (fst b)) m.

End GoMap.

Arguments gomap : clear implicits.

(* ================================================================= *)
(** ** Generic values ([interface{}] as produced by the JSON/YAML decoders)

    Leaves are strings, numbers, booleans, [nil] and sequences (sequences are
    opaque leaves: they are never flattened); [VMap] is a
    [map[string]interface{}].  Numbers are never inspected by the code
    modelled here, integers stand for them. *)

Inductive value : Type :=
| VString (s : string)
| VNumber (n : Z)
| VBool (b : bool)
| VNil
| VSlice (l : list value)
| VMap (m : list (string * value)).

Definition is_map (v : value) : bool :=
  match v with VMap _ => true | _ => false end.

(* ================================================================= *)
(** ** [flatten] and [flattenrec] (gonfic.go, lines 543-560)

    [flatten_value v keys] is the body of [flattenrec]'s loop for one entry
    whose [subkeys] are [keys]: a [map[string]interface{}] is descended into,
    anything else is handed to the adder.  It returns the calls of the adder,
    in order, as (key path, value) pairs.  The entries of each map are visited
    in the order of the list; Go's unspecified [range] order is covered by
    [reorder] below. *)

Fixpoint flatten_value (v : value) (keys : list string) : list (list string * value) :=
  match v with
  | VMap m =>
      (fix go (m : list (string * value)) : list (list string * value) :=
         match m with
         | [] => []
         | (key, v') :: rest => (flatten_value v' (keys ++ [key]) ++ go rest)%list
         end) m
  | _ => [(keys, v)]
  end.

Definition flattenrec (unflatmap : gomap value) (keys : list string)
  : list (list string * value) :=
  flatten_value (VMap unflatmap) keys.

(** The adder [flatmap[joiner(keys)] = value], applied to every call. *)
Definition flatten (unflatmap : gomap value) : gomap value :=
  insert_all (map (fun kv => (dotJoiner (fst kv), snd kv)) (flattenrec unflatmap [])) [].

(** [reorder v w]: [w] is [v] with the entries of each of its maps (at any
    depth) listed in some order; traversing [w] in list order is traversing
    [v] in one of the orders Go's [range] may choose. *)
Fixpoint reorder (v w : value) : Prop :=
  match v with
  | VMap m =>
      exists m' m'', w = VMap m' /\ Permutation m'' m' /\
      (fix rel (l l' : list (string * value)) : Prop :=
         match l, l' with
         | [], [] => True
         | (k, x) :: r, (k', y) :: r' => k = k' /\ reorder x y /\ rel r r'
         | _, _ => False
         end) m m''
  | _ => w = v
  end.

(* ================================================================= *)
(** ** [unflatten] (gonfic.go, lines 525-541)

    [put_path keys value m] is one iteration of the outer loop: descend
    through [keys[:len(keys)-1]], creating missing maps, then set the last
    key.  [None] is the run-time panic of the type assertion
    [node.(map[string]interface{})] (or of [keys[:len(keys)-1]] on an empty
    slice, which [dotSlicer] never returns).  The maps the code creates are
    fresh; writing into them in place is rebuilding them here.  (A map found
    at an intermediate node that was a value of the input would be mutated in
    place by Go; this happens only when a key path is a prefix of another,
    outside every statement below that relies on this model.) *)

Fixpoint put_path (keys : list string) (v : value) (m : gomap value)
  : option (gomap value) :=
  match keys with
  | [] => None
  | [key] => Some (insert key v m)
  | key :: ks =>
      match lookup key m with
      | None =>
          match put_path ks v [] with
          | Some sub => Some (insert key (VMap sub) m)
          | None => None
          end
      | Some (VMap sub) =>
          match put_path ks v sub with
          | Some sub' => Some (insert key (VMap sub') m)
          | None => None
          end
      | Some _ => None
      end
  end.

(** The outer loop over the flat map, visiting its entries in the order of
    [order] (in Go: any permutation of the flat map's entries). *)
Fixpoint unflatten_loop (order : list (string * value)) (unflatmap : gomap value)
  : option (gomap value) :=
  match order with
  | [] => Some unflatmap
  | (flatkey, v) :: rest =>
      match put_path (dotSlicer flatkey) v unflatmap with
      | Some m' => unflatten_loop rest m'
      | None => None
      end
  end.

Definition unflatten_in (order : list (string * value)) : option (gomap value) :=
  unflatten_loop order [].

(** [unflatten(flatmap, dotSlicer)] with [range] in key order. *)
Definition unflatten (flatmap : gomap value) : option (gomap value) :=
  unflatten_in flatmap.

(* ================================================================= *)
(** ** Key paths, trees and prefixes *)

(** [p] is a strict prefix of [q]. *)
Definition strict_prefix (p q : list string) : Prop :=
  exists r, r <> [] /\ q = (p ++ r)%list.

Fixpoint is_prefixb (p q : list string) : bool :=
  match p, q with
  | [], _ => true
  | x :: p', y :: q' => String.eqb x y && is_prefixb p' q'
  | _ :: _, [] => false
  end.

Definition strict_prefixb (p q : list string) : bool :=
  is_prefixb p q && negb (Nat.eqb (length p) (length q)).

(** No key's segment path is a strict prefix of another key's segment path. *)
Definition prefix_free (l : list (string * value)) : bool :=
  forallb (fun a => forallb (fun b => negb (strict_prefixb (dotSlicer (fst a)) (dotSlicer (fst b)))) l) l.

(** The value found by following a key path through nested maps. *)
Fixpoint get_path (p : list string) (m : gomap value) : option value :=
  match p with
  | [] => None
  | [k] => lookup k m
  | k :: ks =>
      match lookup k m with
      | Some (VMap sub) => get_path ks sub
      | _ => None
      end
  end.

(** [path_in p m x]: some entry sequence of the (possibly non-canonical)
    list [m] leads along [p] to [x]. *)
Fixpoint path_in (p : list string) (m : list (string * value)) (x : value) : Prop :=
  match p with
  | [] => False
  | [k] => In (k, x) m
  | k :: ks => exists sub, In (k, VMap sub) m /\ path_in ks sub x
  end.

(** [P] holds of every map of a value, at any depth (sequences are leaves). *)
Fixpoint all_maps (P : list (string * value) -> Prop) (v : value) : Prop :=
  match v with
  | VMap m =>
      P m /\
      (fix go (l : list (string * value)) : Prop :=
         match l with
         | [] => True
         | (_, x) :: r => all_maps P x /\ go r
         end) m
  | _ => True
  end.

(** A hierarchical map: every map in it is a Go map (canonical form). *)
Definition hierarchical (m : gomap value) : Prop := all_maps canonical (VMap m).

(** No map below the root has zero entries. *)
Definition no_empty_node (m : gomap value) : Prop :=
  Forall (fun kv => all_maps (fun s => s <> []) (snd kv)) m.

(** No key of any map in the tree contains the joiner. *)
Definition dot_free_keys (m : gomap value) : Prop :=
  all_maps (Forall (fun kv => has_dot (fst kv) = false)) (VMap m).

(** A flat map whose values are all leaves (no [map[string]interface{}]). *)
Definition leaf_values (l : list (string * value)) : bool :=
  forallb (fun kv => negb (is_map (snd kv))) l.

(* ================================================================= *)
(** ** Run-time model: heap of maps, outcomes, external collaborators *)

(** A Go map value is a reference: the maps live in a heap. *)
Definition loc := nat.

Record heap := mkHeap { maps : loc -> gomap value; next_loc : loc }.

(** A [map[string]interface{}] variable: [None] is the nil map. *)
Definition mapref := option loc.

Definition deref (h : heap) (r : mapref) : gomap value :=
  match r with Some l => maps h l | None => [] end.

Definition upd (h : heap) (l : loc) (m : gomap value) : heap :=
  mkHeap (fun l' => if Nat.eqb l' l then m else maps h l') (next_loc h).

(** [make(map[string]interface{})] *)
Definition make_map (h : heap) : heap * loc :=
  (mkHeap (fun l' => if Nat.eqb l' (next_loc h) then [] else maps h l') (S (next_loc h)),
   next_loc h).

Definition empty_heap : heap := mkHeap (fun _ => []) 0.

(** A computation either returns or panics. *)
Inductive outcome (A : Type) : Type :=
| Ret (a : A)
| Panic.
Arguments Ret {A} a.
Arguments Panic {A}.

Definition error := string.

(** [r[k] = v]; assigning into a nil map panics. *)
Definition map_store (h : heap) (r : mapref) (k : string) (v : value) : outcome heap :=
  match r with
  | Some l => Ret (upd h l (insert k v (maps h l)))
  | None => Panic
  end.

(** A loop [for key, value := range ... { config[key] = value }]. *)
Fixpoint store_all (h : heap) (r : mapref) (l : list (string * value)) : outcome heap :=
  match l with
  | [] => Ret h
  | (k, v) :: l' =>
      match map_store h r k v with
      | Ret h' => store_all h' r l'
      | Panic => Panic
      end
  end.

(** The collaborators outside the package.  [yaml_unmarshal] returns the
    decoded document with the entries of each map listed in the order in
    which [range] will visit them, so every traversal order of [flatten]
    is covered by some [world]. *)
Record world := mkWorld {
  environ : list string;                          (* os.Environ() *)
  read_file : string -> option string;            (* ioutil.ReadFile *)
  yaml_unmarshal : string -> option (gomap value); (* yaml.Unmarshal *)
  json_marshal : value -> option string            (* json.Marshal *)
}.

(* ================================================================= *)
(** ** Sources (gonfic.go, lines 398-519) *)

Inductive source : Type :=
| envSource
| fileSource (path : string)
| bufSource (buf : string) (ext : string)
| structSource (prefix : string) (v : value).

Definition NewEnvSource : source := envSource.
Definition NewFileSource (path : string) : source := fileSource path.
Definition NewBufSource (buf ext : string) : source := bufSource buf (ToLower ext).
Definition NewStructSource (prefix : string) (v : value) : source := structSource prefix v.

(** [readBuf] / [readYaml] / [readUnmarshalableBuf]: [js] and [json] fall
    through to the YAML reader. *)
Definition readBuf (w : world) (buf ext : string) : gomap value + error :=
  if String.eqb ext "js" || String.eqb ext "json" || String.eqb ext "yml" || String.eqb ext "yaml"
  then match yaml_unmarshal w buf with
       | Some m => inl (flatten m)
       | None => inr ("cannot parse " ++ ext ++ " buf: cannot unmarshall")
       end
  else inr (ext ++ " is not a valid yaml or json extension").


(** [filepath.Ext]: the suffix from the last ['.'] of the last path element. *)
Fixpoint ext_rev (rpath : list ascii) (acc : string) : string :=
  match rpath with
  | [] => ""
  | c :: r =>
      if Ascii.eqb c "/"%char then ""
      else if Ascii.eqb c dot then String dot acc
      else ext_rev r (String c acc)
  end.

Definition Ext (path : string) : string := ext_rev (rev (list_ascii_of_string path)) "".

(** The key written by [envSource] for a variable name. *)
Definition env_key (name : string) : string := ReplaceUnderscoreDot (ToLower name).

(** The entries [envSource] writes, in order; [None] is the panic of
    [pair[1]] on an entry without ['=']. *)
Fixpoint env_writes (envs : list string) : option (list (string * value)) :=
  match envs with
  | [] => Some []
  | env :: envs' =>
      match SplitN2Eq env with
      | [key; v] =>
          match env_writes envs' with
          | Some ws => Some ((env_key key, VString v) :: ws)
          | None => None
          end
      | _ => None
      end
  end.

Definition prefixed_key (prefix key : string) : string :=
  if String.eqb prefix "" then key else prefix ++ "." ++ key.

(** [s.Override(config)]: the heap after the call, the returned map and the
    returned error. *)
Definition Override_buf (w : world) (buf ext : string) (h : heap) (config : mapref)
  : outcome (heap * mapref * option error) :=
  match readBuf w buf ext with
  | inr e => Ret (h, config, Some e)
  | inl fm =>
      match store_all h config fm with
      | Ret h' => Ret (h', config, None)
      | Panic => Panic
      end
  end.

Definition Override (w : world) (s : source) (h : heap) (config : mapref)
  : outcome (heap * mapref * option error) :=
  match s with
  | envSource =>
      match env_writes (environ w) with
      | Some ws =>
          match store_all h config ws with
          | Ret h' => Ret (h', config, None)
          | Panic => Panic
          end
      | None => Panic
      end
  | fileSource path =>
      match read_file w path with
      | None => Ret (h, None, Some "cannot read")
      | Some buf =>
          let ext := TrimPrefix (Ext path) "." in
          Override_buf w buf (ToLower ext) h config
      end
  | bufSource buf ext => Override_buf w buf ext h config
  | structSource prefix v =>
      match json_marshal w v with
      | None => Ret (h, config, Some "cannot marshal")
      | Some buf =>
          (* [NewBufSource(buf, "json").Override(make(map[string]interface{}))] *)
          match readBuf w buf "json" with
          | inr e => Ret (h, config, Some e)
          | inl fm =>
              let tmp := insert_all fm [] in
              match store_all h config
                      (map (fun kv => (prefixed_key prefix (fst kv), snd kv)) tmp) with
              | Ret h' => Ret (h', config, None)
              | Panic => Panic
              end
          end
      end
  end.

(** The entries a successful [Override] of [s] writes, in order. *)
Definition contribution (w : world) (s : source) : option (list (string * value)) :=
  match s with
  | envSource => env_writes (environ w)
  | fileSource path =>
      match read_file w path with
      | None => None
      | Some buf =>
          match readBuf w buf (ToLower (TrimPrefix (Ext path) ".")) with
          | inl fm => Some fm
          | inr _ => None
          end
      end
  | bufSource buf ext =>
      match readBuf w buf ext with inl fm => Some fm | inr _ => None end
  | structSource prefix v =>
      match json_marshal w v with
      | None => None
      | Some buf =>
          match readBuf w buf "json" with
          | inl fm => Some (map (fun kv => (prefixed_key prefix (fst kv), snd kv)) (insert_all fm []))
          | inr _ => None
          end
      end
  end.

(* ================================================================= *)
(** ** The configuration store (gonfic.go, lines 327-388) *)

Record Config := mkConfig { flat : mapref }.

Definition NewConfig (h : heap) : heap * Config :=
  let '(h', l) := make_map h in (h', mkConfig (Some l)).

Definition AddSource (w : world) (s : source) (h : heap) (c : Config)
  : outcome (heap * Config * option error) :=
  match Override w s h (flat c) with
  | Panic => Panic
  | Ret (h', _, Some e) => Ret (h', c, Some e)
  | Ret (h', r, None) => Ret (h', mkConfig r, None)
  end.

(** [ToFlatMap] returns the field itself. *)
Definition ToFlatMap (c : Config) : mapref := flat c.

Definition ToHierarchicalMap (h : heap) (c : Config) : option (gomap value) :=
  unflatten (deref h (ToFlatMap c)).

(** The filtering loop of [Unmarshal]. *)
Definition filter_prefix (prefix : string) (pfm : gomap value) : gomap value :=
  fold_left (fun acc kv =>
               if HasPrefix (fst kv) (prefix ++ ".")
               then insert (TrimPrefix (fst kv) (prefix ++ ".")) (snd kv) acc
               else acc) pfm [].

(** The hierarchical map [Unmarshal(prefix, v)] hands to the decoder
    ([None]: the panic of [unflatten]).  Inside [if prefix != ""] the
    statement [fm := make(...)] declares a new [fm], local to the block: the
    filtered map is built and dropped, and [unflatten] reads the outer [fm],
    which is [pfm]. *)
Definition Unmarshal_input (prefix : string) (h : heap) (c : Config) : option (gomap value) :=
  let pfm := deref h (ToFlatMap c) in
  let fm := pfm in
  let _block_fm := if String.eqb prefix "" then fm else filter_prefix prefix pfm in
  unflatten fm.

(** What the specification describes for [Decode(targetPrefix, target)]:
    the prefixed keys only, with the prefix stripped. *)
Definition Decode_input_spec (prefix : string) (h : heap) (c : Config) : option (gomap value) :=
  let pfm := deref h (ToFlatMap c) in
  unflatten (if String.eqb prefix "" then pfm else filter_prefix prefix pfm).

(* ================================================================= *)
(** ** [time.ParseDuration] (Go standard library)

    Followed statement by statement on [uint64] values held in [Z]; the one
    departure is the fraction, added as the exact [f * unit / scale] rounded
    down where Go goes through [float64]. *)

Open Scope Z_scope.

Definition two63 : Z := 2 ^ 63.

Definition is_digit (c : ascii) : bool :=
  let n := nat_of_ascii c in (48 <=? n)%nat && (n <=? 57)%nat.

Definition digit_val (c : ascii) : Z := Z.of_nat (nat_of_ascii c) - 48.

(** A string made of decimal digits only. *)
Fixpoint all_digits (s : string) : bool :=
  match s with
  | EmptyString => true
  | String c s' => is_digit c && all_digits s'
  end.

(** [leadingInt]: [None] is [errLeadingInt]. *)
Fixpoint leadingInt (s : string) (x : Z) : option (Z * string) :=
  match s with
  | EmptyString => Some (x, EmptyString)
  | String c s' =>
      if is_digit c then
        if x >? two63 / 10 then None
        else let x' := x * 10 + digit_val c in
             if x' >? two63 then None else leadingInt s' x'
      else Some (x, s)
  end.

(** [leadingFraction]: value, scale and rest. *)
Fixpoint leadingFraction (s : string) (x scale : Z) (overflow : bool) : Z * Z * string :=
  match s with
  | EmptyString => (x, scale, EmptyString)
  | String c s' =>
      if is_digit c then
        if overflow then leadingFraction s' x scale true
        else if x >? (two63 - 1) / 10 then leadingFraction s' x scale true
        else let y := x * 10 + digit_val c in
             if y >? two63 then leadingFraction s' x scale true
             else leadingFraction s' y (scale * 10) false
      else (x, scale, s)
  end.

(** The unit: the longest prefix with no ['.'] and no digit. *)
Fixpoint span_unit (s : string) : string * string :=
  match s with
  | EmptyString => (EmptyString, EmptyString)
  | String c s' =>
      if Ascii.eqb c dot || is_digit c then (EmptyString, s)
      else let '(u, r) := span_unit s' in (String c u, r)
  end.

Definition micro_sign_s : string := String (ascii_of_nat 194) (String (ascii_of_nat 181) "s").
Definition greek_mu_s : string := String (ascii_of_nat 206) (String (ascii_of_nat 188) "s").

Definition unitMap (u : string) : option Z :=
  if String.eqb u "ns" then Some 1
  else if String.eqb u "us" || String.eqb u micro_sign_s || String.eqb u greek_mu_s then Some 1000
  else if String.eqb u "ms" then Some 1000000
  else if String.eqb u "s" then Some 1000000000
  else if String.eqb u "m" then Some 60000000000
  else if String.eqb u "h" then Some 3600000000000
  else None.

(** The loop [for s != ""]; each round consumes at least the unit, so
    [String.length s] rounds suffice. *)
Fixpoint pd_loop (fuel : nat) (s : string) (d : Z) : option Z :=
  match s with
  | EmptyString => Some d
  | String c _ =>
      match fuel with
      | O => None
      | S fuel' =>
          if negb (Ascii.eqb c dot || is_digit c) then None else
          match leadingInt s 0 with
          | None => None
          | Some (v, s1) =>
              let pre := negb (Nat.eqb (String.length s) (String.length s1)) in
              let '(f, scale, s2, post) :=
                match s1 with
                | String c1 s1' =>
                    if Ascii.eqb c1 dot then
                      let '(f, scale, s2) := leadingFraction s1' 0 1 false in
                      (f, scale, s2, negb (Nat.eqb (String.length s1') (String.length s2)))
                    else (0, 1, s1, false)
                | EmptyString => (0, 1, s1, false)
                end in
              if negb (pre || post) then None else
              let '(u, s3) := span_unit s2 in
              if String.eqb u "" then None else
              match unitMap u with
              | None => None
              | Some unit =>
                  if v >? two63 / unit then None else
                  let v := v * unit in
                  let v := if f >? 0 then v + f * unit / scale else v in
                  if (f >? 0) && (v >? two63) then None else
                  let d := (d + v) mod 2 ^ 64 in
                  if d >? two63 then None else pd_loop fuel' s3 d
              end
          end
      end
  end.

(** [time.ParseDuration]: [None] is the returned error. *)
Definition ParseDuration (orig : string) : option Z :=
  let '(neg, s) :=
    match orig with
    | String c s' =>
        if Ascii.eqb c "-"%char then (true, s')
        else if Ascii.eqb c "+"%char then (false, s') else (false, orig)
    | EmptyString => (false, orig)
    end in
  if String.eqb s "0" then Some 0 else
  if String.eqb s "" then None else
  match pd_loop (String.length s) s 0 with
  | None => None
  | Some d => if neg then Some (- d) else if d >? two63 - 1 then None else Some d
  end.

(* ================================================================= *)
(** ** [decodeHook] (gonfic.go, lines 390-396) *)

Inductive Kind : Type :=
| KBool | KInt | KInt64 | KUint | KFloat32 | KFloat64 | KString
| KSlice | KMap | KPtr | KStruct | KInterface.

Definition Kind_eqb (a b : Kind) : bool :=
  match a, b with
  | KBool, KBool | KInt, KInt | KInt64, KInt64 | KUint, KUint
  | KFloat32, KFloat32 | KFloat64, KFloat64 | KString, KString
  | KSlice, KSlice | KMap, KMap | KPtr, KPtr | KStruct, KStruct
  | KInterface, KInterface => true
  | _, _ => false
  end.

(** A [reflect.Type], through its [Kind()] and [String()]. *)
Record rtype := mkType { kind : Kind; type_string : string }.

Definition rtype_eqb (a b : rtype) : bool :=
  Kind_eqb (kind a) (kind b) && String.eqb (type_string a) (type_string b).

Definition string_t : rtype := mkType KString "string".
Definition duration_t : rtype := mkType KInt64 "time.Duration".

(** An [interface{}]: dynamic type and payload. *)
Record iface := mkIface { dyn_type : rtype; dyn_val : value }.

(** [v.(string)]: succeeds only when the dynamic type is [string] itself. *)
Definition assert_string (v : iface) : option string :=
  if rtype_eqb (dyn_type v) string_t
  then match dyn_val v with VString s => Some s | _ => None end
  else None.

Definition decodeHook (srcType dstType : rtype) (v : iface) : outcome (iface * option error) :=
  if Kind_eqb (kind srcType) KString && String.eqb (type_string dstType) "time.Duration" then
    match assert_string v with
    | None => Panic
    | Some s =>
        match ParseDuration s with
        | Some d => Ret (mkIface duration_t (VNumber d), None)
        | None => Ret (mkIface duration_t (VNumber 0), Some ("time: invalid duration " ++ s))
        end
    end
  else Ret (v, None).

(* ================================================================= *)
(** ** The environment source of the second version of the package
    (gonfic.go, lines 204-225), which takes a prefix *)

Module V2.

Record envSource := mkEnvSource { prefix : string }.

Definition NewEnvSource (prefix : string) : envSource := mkEnvSource (ToLower prefix).

(** [s.Override(config)]; [None] is the panic of [pair[1]]. *)
Fixpoint Override (s : envSource) (envs : list string) (config : gomap value)
  : option (gomap value) :=
  match envs with
  | [] => Some config
  | env :: envs' =>
      match SplitN2Eq env with
      | [key; v] =>
          let key := env_key key in
          if negb (HasPrefix key (prefix s ++ "."))
          then Override s envs' config
          else Override s envs' (insert (TrimPrefix key (prefix s ++ ".")) (VString v) config)
      | _ => None
      end
  end.

End V2.

(* ================================================================= *)
(** ** The environment source of the first version of the package
    (gonfic.go, lines 54-75): the same loop, but [NewEnvSource] keeps the
    prefix as it is given. *)

Module V1.

Record envSource := mkEnvSource { prefix : string }.

Definition NewEnvSource (prefix : string) : envSource := mkEnvSource prefix.

(** [s.Override(config)]; [None] is the panic of [pair[1]]. *)
Fixpoint Override (s : envSource) (envs : list string) (config : gomap value)
  : option (gomap value) :=
  match envs with
  | [] => Some config
  | env :: envs' =>
      match SplitN2Eq env with
      | [key; v] =>
          let key := env_key key in
          if negb (HasPrefix key (prefix s ++ "."))
          then Override s envs' config
          else Override s envs' (insert (TrimPrefix key (prefix s ++ ".")) (VString v) config)
      | _ => None
      end
  end.

End V1.

(** [vpath q v x]: following [q] from the value [v] leads to [x]. *)
Definition vpath (q : list string) (v x : value) : Prop :=
  match q with
  | [] => x = v
  | _ => match v with VMap sub => path_in q sub x | _ => False end
  end.

(** [vget q v]: the value found by following [q] from [v]. *)
Definition vget (q : list string) (v : value) : option value :=
  match q with
  | [] => Some v
  | _ => match v with VMap sub => get_path q sub | _ => None end
  end.

(** Neither path is a prefix of the other. *)
Definition incomparable (p q : list string) : Prop :=
  p <> q /\ ~ strict_prefix p q /\ ~ strict_prefix q p.

(** The same key never comes with two values. *)
Definition functional (l : list (string * value)) : Prop :=
  forall k x1 x2, In (k, x1) l -> In (k, x2) l -> x1 = x2.

(** Two calls of the adder with paths of the same joined key hand it the
    same value. *)
Definition join_functional (e : list (list string * value)) : Prop :=
  forall p1 x1 p2 x2, In (p1, x1) e -> In (p2, x2) e -> dotJoiner p1 = dotJoiner p2 -> x1 = x2.

(** The key paths of a flat map, as [unflatten] splits them. *)
Definition paths (l : list (string * value)) : list (list string * value) :=
  map (fun kv => (dotSlicer (fst kv), snd kv)) l.

(** What the map built by [unflatten] holds after the keys [D] (as paths)
    have been processed: each of them leads to its value, each non-empty
    strict prefix of one of them leads to a map, and nothing else is
    reachable except from inside a value. *)
Definition loop_inv (D : list (list string * value)) (acc : gomap value) : Prop :=
  (forall p x, In (p, x) D -> get_path p acc = Some x) /\
  (forall r p x, In (p, x) D -> strict_prefix r p -> r <> [] ->
                 exists s, get_path r acc = Some (VMap s)) /\
  (forall r y, get_path r acc = Some y ->
     In (r, y) D \/
     (exists p x, In (p, x) D /\ strict_prefix r p /\ is_map y = true) \/
     (exists p x e, In (p, x) D /\ e <> [] /\ r = (p ++ e)%list /\ vget e x = Some y)).

(* ================================================================= *)
(** ** Concrete inputs *)

(** Flat maps. *)
Definition fm_ab : gomap value := [("a.b", VNumber 1); ("a.c", VBool true); ("d", VString "x")].
Definition fm_map_values : gomap value :=
  [("a.b", VMap [("c", VNumber 1)]); ("a.d", VNumber 2); ("e", VMap [])].

(** Hierarchical maps, and some of their traversal orders. *)
Definition t_dotted : gomap value := [("a.b", VNumber 1)].
Definition t_abd : gomap value :=
  [("a", VMap [("b", VNumber 1); ("c", VBool true)]); ("d", VString "x")].
Definition t_abd_swapped : gomap value :=
  [("d", VString "x"); ("a", VMap [("c", VBool true); ("b", VNumber 1)])].
Definition t_clash : gomap value := [("a", VMap [("b", VNumber 2)]); ("a.b", VNumber 1)].
Definition t_clash_swapped : gomap value := [("a.b", VNumber 1); ("a", VMap [("b", VNumber 2)])].

(** A world: the process environment, one file, and the documents the
    YAML reader can decode (written in YAML flow style). *)
Definition buf_v1 : string := "values: {v1: {b: true, i: -42, d: 1m}}".
Definition tree_v1 : gomap value :=
  [("values", VMap [("v1", VMap [("b", VBool true); ("d", VString "1m"); ("i", VNumber (-42))])])].
Definition buf_ax : string := "a: {x: buf, y: 1}".
Definition tree_ax : gomap value := [("a", VMap [("x", VString "buf"); ("y", VNumber 1)])].

Definition w_demo : world :=
  mkWorld ["A_X=env"; "HOME=/root"]
          (fun path => if String.eqb path "conf.yaml" then Some buf_ax else None)
          (fun buf => if String.eqb buf buf_v1 then Some tree_v1
                      else if String.eqb buf buf_ax then Some tree_ax else None)
          (fun _ => None).

(** A world in which every file holds [buf_ax] and [json.Marshal] encodes
    every value as [buf_ax]. *)
Definition w_struct : world :=
  mkWorld [] (fun _ => Some buf_ax) (yaml_unmarshal w_demo) (fun _ => Some buf_ax).

(** The heap and the store after a call of [AddSource]. *)
Definition result_of (o : outcome (heap * Config * option error)) : heap * Config :=
  match o with Ret (h, c, _) => (h, c) | Panic => (empty_heap, mkConfig None) end.

Definition store0 : heap * Config := NewConfig empty_heap.
Definition store1 : heap * Config :=
  result_of (AddSource w_demo (NewBufSource buf_ax "JSON") (fst store0) (snd store0)).
Definition store2 : heap * Config :=
  result_of (AddSource w_demo NewEnvSource (fst store1) (snd store1)).
Definition store_v1 : heap * Config :=
  result_of (AddSource w_demo (NewBufSource buf_v1 "json") (fst store0) (snd store0)).

(* ================================================================= *)
(** * Lemmas *)

(** ** String order and Go maps *)

Lemma skey_lt_irrefl k : ~ skey_lt k k.
Proof. exact (StrictOrder_Irreflexive (R := String_as_OT.lt) k). Qed.

Lemma skey_lt_trans a b c : skey_lt a b -> skey_lt b c -> skey_lt a c.
Proof. apply (StrictOrder_Transitive (R := String_as_OT.lt)). Qed.

Lemma skey_lt_neq a b : skey_lt a b -> String.eqb a b = false.
Proof.
  intros H. apply String.eqb_neq. intros ->. exact (skey_lt_irrefl _ H).
Qed.

Lemma compare_cases k k' :
  (String_as_OT.compare k k' = Eq /\ k = k') \/
  (String_as_OT.compare k k' = Lt /\ skey_lt k k') \/
  (String_as_OT.compare k k' = Gt /\ skey_lt k' k).
Proof.
  destruct (String_as_OT.compare_spec k k'); auto.
Qed.

Section MapLemmas.
Context {A : Type}.
Implicit Types (m : gomap A) (l : list (string * A)).

Lemma lookup_insert k k' v m :
  lookup k (insert k' v m) = if String.eqb k k' then Some v else lookup k m.
Proof.
  induction m as [|[k0 v0] m IH]; simpl; [reflexivity|].
  destruct (compare_cases k' k0) as [[-> ->]|[[-> _]|[-> Hgt]]]; simpl.
  - destruct (String.eqb k k0); reflexivity.
  - reflexivity.
  - rewrite IH. destruct (String.eqb k k0) eqn:E1, (String.eqb k k') eqn:E2; try reflexivity.
    apply String.eqb_eq in E1, E2. subst. exfalso. exact (skey_lt_irrefl _ Hgt).
Qed.

Lemma lookup_insert_eq k v m : lookup k (insert k v m) = Some v.
Proof. rewrite lookup_insert, String.eqb_refl. reflexivity. Qed.

Lemma lookup_insert_ne k k' v m : k <> k' -> lookup k (insert k' v m) = lookup k m.
Proof. intros H. rewrite lookup_insert. apply String.eqb_neq in H. rewrite H. reflexivity. Qed.

Lemma Forall_insert (P : string * A -> Prop) k v m :
  P (k, v) -> Forall P m -> Forall P (insert k v m).
Proof.
  intros Hk Hm. induction Hm as [|[k0 v0] m H0 Hm IH]; simpl; [auto|].
  destruct (String_as_OT.compare k k0); auto.
Qed.

Lemma insert_not_nil k v m : insert k v m <> [].
Proof.
  destruct m as [|[k0 v0] m]; simpl; [discriminate|].
  destruct (String_as_OT.compare k k0); discriminate.
Qed.

Lemma canonical_insert k v m : canonical m -> canonical (insert k v m).
Proof.
  unfold canonical. induction m as [|[k0 v0] m IH]; intros Hs; simpl.
  - repeat constructor.
  - inversion Hs as [|? ? Hs' Hall]; subst.
    destruct (compare_cases k k0) as [[-> ->]|[[-> Hlt]|[-> Hgt]]]; simpl.
    + constructor; assumption.
    + constructor; [assumption|]. constructor; [exact Hlt|].
      eapply Forall_impl; [|exact Hall]. intros [a b] Ha. exact (skey_lt_trans _ _ _ Hlt Ha).
    + constructor; [auto|]. apply Forall_insert; assumption.
Qed.

Lemma lookup_app k l1 l2 :
  lookup k (l1 ++ l2)%list = match lookup k l1 with Some v => Some v | None => lookup k l2 end.
Proof.
  induction l1 as [|[k0 v0] l1 IH]; simpl; [reflexivity|].
  destruct (String.eqb k k0); auto.
Qed.

Lemma lookup_insert_all k l m :
  lookup k (insert_all l m) = match lookup k (rev l) with Some v => Some v | None => lookup k m end.
Proof.
  revert m. induction l as [|[k0 v0] l IH]; intros m; simpl; [reflexivity|].
  rewrite IH, lookup_app. simpl. rewrite lookup_insert.
  destruct (lookup k (rev l)); [reflexivity|].
  destruct (String.eqb k k0); reflexivity.
Qed.

Lemma canonical_insert_all l m : canonical m -> canonical (insert_all l m).
Proof.
  revert m. induction l as [|[k v] l IH]; intros m Hm; simpl; auto using canonical_insert.
Qed.

Lemma lookup_none_below k m :
  Forall (fun kv => skey_lt k (fst kv)) m -> lookup k m = None.
Proof.
  induction 1 as [|[k0 v0] m H _ IH]; simpl in *; [reflexivity|].
  rewrite (skey_lt_neq _ _ H). exact IH.
Qed.

Lemma canonical_ext m1 m2 :
  canonical m1 -> canonical m2 -> (forall k, lookup k m1 = lookup k m2) -> m1 = m2.
Proof.
  unfold canonical. revert m2.
  induction m1 as [|[k1 v1] m1 IH]; intros m2 H1 H2 Hl.
  - destruct m2 as [|[k2 v2] m2]; [reflexivity|].
    specialize (Hl k2). simpl in Hl. rewrite String.eqb_refl in Hl. discriminate.
  - destruct m2 as [|[k2 v2] m2].
    + specialize (Hl k1). simpl in Hl. rewrite String.eqb_refl in Hl. discriminate.
    + inversion H1 as [|? ? H1' A1]; subst. inversion H2 as [|? ? H2' A2]; subst.
      assert (k1 = k2) as <-.
      { destruct (compare_cases k1 k2) as [[_ E]|[[_ Hlt]|[_ Hgt]]]; [exact E| |].
        - specialize (Hl k1). simpl in Hl. rewrite String.eqb_refl, (skey_lt_neq _ _ Hlt) in Hl.
          rewrite lookup_none_below in Hl; [discriminate|].
          eapply Forall_impl; [|exact A2]. intros [a b] Ha. exact (skey_lt_trans _ _ _ Hlt Ha).
        - specialize (Hl k2). simpl in Hl. rewrite String.eqb_refl, (skey_lt_neq _ _ Hgt) in Hl.
          rewrite lookup_none_below in Hl; [discriminate|].
          eapply Forall_impl; [|exact A1]. intros [a b] Ha. exact (skey_lt_trans _ _ _ Hgt Ha). }
      assert (v1 = v2) as <-.
      { specialize (Hl k1). simpl in Hl. rewrite String.eqb_refl in Hl. congruence. }
      f_equal. apply IH; auto. intros k.
      destruct (String.eqb k k1) eqn:E.
      * apply String.eqb_eq in E. subst.
        rewrite !lookup_none_below; auto.
      * specialize (Hl k). simpl in Hl. rewrite E in Hl. exact Hl.
Qed.

Lemma lookup_In k v m : lookup k m = Some v -> In (k, v) m.
Proof.
  induction m as [|[k0 v0] m IH]; simpl; [discriminate|].
  destruct (String.eqb k k0) eqn:E; intros H.
  - apply String.eqb_eq in E. subst. left. congruence.
  - right. auto.
Qed.

Lemma In_lookup_some k v m : In (k, v) m -> exists v', lookup k m = Some v' /\ In (k, v') m.
Proof.
  intros H. destruct (lookup k m) as [v'|] eqn:E.
  - exists v'. split; [reflexivity|]. apply lookup_In. exact E.
  - exfalso. induction m as [|[k0 v0] m IH]; simpl in *; [contradiction|].
    destruct (String.eqb k k0) eqn:E'; [discriminate|].
    destruct H as [H|H]; [|auto]. inversion H; subst. rewrite String.eqb_refl in E'. discriminate.
Qed.

Lemma canonical_In_lookup k v m : canonical m -> In (k, v) m -> lookup k m = Some v.
Proof.
  unfold canonical. induction m as [|[k0 v0] m IH]; intros Hs Hin; simpl in *; [contradiction|].
  inversion Hs as [|? ? Hs' Hall]; subst.
  destruct Hin as [Hin|Hin].
  - inversion Hin; subst. rewrite String.eqb_refl. reflexivity.
  - rewrite Forall_forall in Hall. specialize (Hall _ Hin). simpl in Hall.
    assert (String.eqb k k0 = false) as ->.
    { apply String.eqb_neq. intros ->. exact (skey_lt_irrefl _ Hall). }
    auto.
Qed.

End MapLemmas.

Lemma option_ext {A} (o1 o2 : option A) :
  (forall x, o1 = Some x <-> o2 = Some x) -> o1 = o2.
Proof.
  intros H. destruct o1 as [a|], o2 as [b|]; auto.
  - apply H. reflexivity.
  - symmetry. apply H. reflexivity.
  - apply H. reflexivity.
Qed.

Lemma functional_lookup k x l : functional l -> (lookup k l = Some x <-> In (k, x) l).
Proof.
  intros Hf. split; [apply lookup_In|].
  intros Hin. destruct (In_lookup_some _ _ _ Hin) as [x' [E Hin']].
  rewrite E. f_equal. exact (Hf _ _ _ Hin' Hin).
Qed.

Lemma functional_canonical m : canonical m -> functional m.
Proof.
  intros Hc k x1 x2 H1 H2.
  pose proof (canonical_In_lookup _ _ _ Hc H1). pose proof (canonical_In_lookup _ _ _ Hc H2).
  congruence.
Qed.

(** ** Splitting and joining keys *)

Lemma dotSlicer_not_nil s : dotSlicer s <> [].
Proof.
  destruct s as [|c s]; simpl; [discriminate|].
  destruct (Ascii.eqb c dot); [discriminate|].
  destruct (dotSlicer s); discriminate.
Qed.

Lemma dotJoiner_cons_char c seg rest :
  dotJoiner (String c seg :: rest) = String c (dotJoiner (seg :: rest)).
Proof. destruct rest; reflexivity. Qed.

Lemma dotJoiner_dotSlicer s : dotJoiner (dotSlicer s) = s.
Proof.
  induction s as [|c s IH]; simpl; [reflexivity|].
  destruct (dotSlicer s) as [|seg rest] eqn:Es;
    [exfalso; exact (dotSlicer_not_nil s Es)|].
  destruct (Ascii.eqb c dot) eqn:E.
  - apply Ascii.eqb_eq in E. subst c. change (dotJoiner (EmptyString :: seg :: rest)) with (String dot (dotJoiner (seg :: rest))). rewrite IH. reflexivity.
  - rewrite dotJoiner_cons_char, IH. reflexivity.
Qed.

Lemma dotSlicer_inj a b : dotSlicer a = dotSlicer b -> a = b.
Proof.
  intros H. rewrite <- (dotJoiner_dotSlicer a), <- (dotJoiner_dotSlicer b), H. reflexivity.
Qed.

Lemma has_dot_cons c x : has_dot (String c x) = false -> Ascii.eqb c dot = false /\ has_dot x = false.
Proof. simpl. apply orb_false_iff. Qed.

Lemma dotSlicer_nodot x : has_dot x = false -> dotSlicer x = [x].
Proof.
  induction x as [|c x IH]; simpl; [reflexivity|].
  intros H. apply orb_false_iff in H as [H1 H2].
  rewrite H1, IH by exact H2. reflexivity.
Qed.

Lemma dotSlicer_app_dot x r :
  has_dot x = false -> dotSlicer (x ++ String dot r) = x :: dotSlicer r.
Proof.
  induction x as [|c x IH]; intros H; simpl.
  - rewrite ?Ascii.eqb_refl. reflexivity.
  - apply orb_false_iff in H as [H1 H2]. rewrite H1, IH by exact H2. reflexivity.
Qed.

Lemma dotSlicer_dotJoiner l :
  l <> [] -> Forall (fun s => has_dot s = false) l -> dotSlicer (dotJoiner l) = l.
Proof.
  induction l as [|x l IH]; intros Hne Hd; [congruence|].
  inversion Hd as [|? ? Hx Hl]; subst.
  destruct l as [|y l].
  - simpl. apply dotSlicer_nodot. exact Hx.
  - change (dotJoiner (x :: y :: l)) with (x ++ String dot (dotJoiner (y :: l))).
    rewrite dotSlicer_app_dot by exact Hx. rewrite IH; [reflexivity|discriminate|exact Hl].
Qed.

Lemma dotSlicer_segments s : Forall (fun seg => has_dot seg = false) (dotSlicer s).
Proof.
  induction s as [|c s IH]; simpl; [repeat constructor|].
  destruct (Ascii.eqb c dot) eqn:E.
  - constructor; [reflexivity|exact IH].
  - destruct (dotSlicer s) as [|seg rest]; [repeat constructor; simpl; rewrite E; reflexivity|].
    inversion IH as [|? ? Hs Hr]; subst. constructor; [|exact Hr].
    simpl. rewrite E, Hs. reflexivity.
Qed.

(** ** Prefixes of key paths *)

Lemma is_prefixb_spec p q : is_prefixb p q = true <-> exists r, q = (p ++ r)%list.
Proof.
  revert q. induction p as [|a p IH]; intros q; simpl.
  - split; [intros _; exists q; reflexivity|reflexivity].
  - destruct q as [|b q].
    + split; [discriminate|]. intros [r Hr]. discriminate.
    + rewrite andb_true_iff, String.eqb_eq, IH. split.
      * intros [-> [r ->]]. exists r. reflexivity.
      * intros [r Hr]. inversion Hr; subst. split; [reflexivity|]. exists r. reflexivity.
Qed.

Lemma strict_prefixb_spec p q : strict_prefixb p q = true <-> strict_prefix p q.
Proof.
  unfold strict_prefixb, strict_prefix. rewrite andb_true_iff, is_prefixb_spec, negb_true_iff.
  split.
  - intros [[r ->] Hl]. exists r. split; [|reflexivity].
    intros ->. rewrite app_nil_r, Nat.eqb_refl in Hl. discriminate.
  - intros [r [Hr ->]]. split; [exists r; reflexivity|].
    apply Nat.eqb_neq. rewrite length_app. destruct r; [congruence|simpl; lia].
Qed.

Lemma prefix_free_spec l :
  prefix_free l = true <->
  (forall a b, In a l -> In b l -> ~ strict_prefix (dotSlicer (fst a)) (dotSlicer (fst b))).
Proof.
  unfold prefix_free. rewrite forallb_forall. split.
  - intros H a b Ha Hb Hs. specialize (H a Ha). rewrite forallb_forall in H.
    specialize (H b Hb). apply strict_prefixb_spec in Hs. rewrite Hs in H. discriminate.
  - intros H a Ha. apply forallb_forall. intros b Hb. apply negb_true_iff.
    destruct (strict_prefixb _ _) eqn:E; [|reflexivity].
    apply strict_prefixb_spec in E. exfalso. exact (H a b Ha Hb E).
Qed.

Lemma strict_prefix_nil q : strict_prefix [] q <-> q <> [].
Proof.
  unfold strict_prefix. split.
  - intros [r [Hr ->]]. exact Hr.
  - intros H. exists q. auto.
Qed.

Lemma strict_prefix_to_nil p : ~ strict_prefix p [].
Proof.
  intros [r [Hr Heq]]. destruct p, r; simpl in Heq; congruence.
Qed.

Lemma strict_prefix_cons a b p q :
  strict_prefix (a :: p) (b :: q) <-> a = b /\ strict_prefix p q.
Proof.
  unfold strict_prefix. split.
  - intros [r [Hr Heq]]. inversion Heq; subst. eauto.
  - intros [-> [r [Hr ->]]]. eauto.
Qed.

Lemma strict_prefix_irrefl p : ~ strict_prefix p p.
Proof.
  intros [r [Hr Heq]]. apply (f_equal (@length _)) in Heq.
  rewrite length_app in Heq. destruct r; [congruence|simpl in Heq; lia].
Qed.

Lemma strict_prefix_trans p q r :
  strict_prefix p q -> strict_prefix q r -> strict_prefix p r.
Proof.
  intros [a [Ha ->]] [b [Hb ->]]. exists (a ++ b)%list. split.
  - destruct a; [congruence|discriminate].
  - rewrite app_assoc. reflexivity.
Qed.

Lemma prefix_cases p q :
  p = q \/ strict_prefix p q \/ strict_prefix q p \/ incomparable p q.
Proof.
  destruct (list_eq_dec string_dec p q) as [E|E]; [auto|].
  destruct (strict_prefixb p q) eqn:E1; [apply strict_prefixb_spec in E1; auto|].
  destruct (strict_prefixb q p) eqn:E2; [apply strict_prefixb_spec in E2; auto|].
  right; right; right. split; [exact E|]. split.
  - intros H. apply strict_prefixb_spec in H. congruence.
  - intros H. apply strict_prefixb_spec in H. congruence.
Qed.

Lemma incomparable_cons k p q : incomparable (k :: p) (k :: q) <-> incomparable p q.
Proof.
  unfold incomparable. rewrite !strict_prefix_cons. split.
  - intros [H1 [H2 H3]]. repeat split.
    + intros ->. auto.
    + intros H. auto.
    + intros H. auto.
  - intros [H1 [H2 H3]]. repeat split.
    + intros H. inversion H. auto.
    + intros [_ H]. auto.
    + intros [_ H]. auto.
Qed.

(** ** Induction on values and the nested traversals *)

Section ValueInd.
Variable P : value -> Prop.
Hypothesis HLeaf : forall v, is_map v = false -> P v.
Hypothesis HMap : forall m, Forall (fun kv => P (snd kv)) m -> P (VMap m).

Fixpoint value_ind' (v : value) : P v :=
  match v with
  | VMap m =>
      HMap m ((fix go (l : list (string * value)) : Forall (fun kv => P (snd kv)) l :=
                 match l with
                 | [] => Forall_nil _
                 | (k, x) :: r => @Forall_cons _ (fun kv => P (snd kv)) (k, x) r (value_ind' x) (go r)
                 end) m)
  | VString s => HLeaf (VString s) eq_refl
  | VNumber n => HLeaf (VNumber n) eq_refl
  | VBool b => HLeaf (VBool b) eq_refl
  | VNil => HLeaf VNil eq_refl
  | VSlice l => HLeaf (VSlice l) eq_refl
  end.

End ValueInd.

Lemma all_maps_go P m :
  (fix go (l : list (string * value)) : Prop :=
     match l with
     | [] => True
     | (_, x) :: r => all_maps P x /\ go r
     end) m <-> Forall (fun kv => all_maps P (snd kv)) m.
Proof.
  induction m as [|[k x] m IH]; simpl.
  - split; auto.
  - rewrite IH. split.
    + intros [H1 H2]. constructor; auto.
    + intros H. inversion H; subst. auto.
Qed.

Lemma all_maps_VMap P m :
  all_maps P (VMap m) <-> P m /\ Forall (fun kv => all_maps P (snd kv)) m.
Proof.
  pose proof (all_maps_go P m) as H. split.
  - intros [H1 H2]. split; [exact H1|]. apply H. exact H2.
  - intros [H1 H2]. split; [exact H1|]. apply H. exact H2.
Qed.

Lemma all_maps_In P m k v : all_maps P (VMap m) -> In (k, v) m -> all_maps P v.
Proof.
  intros H Hin. apply all_maps_VMap in H as [_ H]. rewrite Forall_forall in H.
  exact (H _ Hin).
Qed.

Lemma reorder_go m m'' :
  (fix rel (l l' : list (string * value)) : Prop :=
     match l, l' with
     | [], [] => True
     | (k, x) :: r, (k', y) :: r' => k = k' /\ reorder x y /\ rel r r'
     | _, _ => False
     end) m m'' <-> Forall2 (fun a b => fst a = fst b /\ reorder (snd a) (snd b)) m m''.
Proof.
  revert m''. induction m as [|[k x] m IH]; intros [|[k' y] m'']; simpl.
  - split; auto.
  - split; [contradiction|intros H; inversion H].
  - split; [contradiction|intros H; inversion H].
  - rewrite IH. split.
    + intros [H1 [H2 H3]]. constructor; auto.
    + intros H. inversion H as [|? ? ? ? [H1 H2] H3]; subst. auto.
Qed.

Lemma reorder_VMap m w :
  reorder (VMap m) w <->
  exists m' m'', w = VMap m' /\ Permutation m'' m' /\
                 Forall2 (fun a b => fst a = fst b /\ reorder (snd a) (snd b)) m m''.
Proof.
  split.
  - intros (m' & m'' & H1 & H2 & H3). exists m', m''. repeat split; auto.
    apply reorder_go. exact H3.
  - intros (m' & m'' & H1 & H2 & H3). exists m', m''. repeat split; auto.
    apply reorder_go. exact H3.
Qed.

Lemma flatten_value_nil keys : flatten_value (VMap []) keys = [].
Proof. reflexivity. Qed.

Lemma flatten_value_cons keys k x m :
  flatten_value (VMap ((k, x) :: m)) keys =
  (flatten_value x (keys ++ [k]) ++ flatten_value (VMap m) keys)%list.
Proof. reflexivity. Qed.

Lemma flatten_value_leaf v keys : is_map v = false -> flatten_value v keys = [(keys, v)].
Proof. destruct v; simpl; congruence. Qed.

(** ** Paths *)

Lemma path_in_cons k q m x :
  path_in (k :: q) m x <-> exists v, In (k, v) m /\ vpath q v x.
Proof.
  destruct q as [|k' q]; simpl; split.
  - intros H. exists x. auto.
  - intros [v [H ->]]. exact H.
  - intros [sub [H1 H2]]. exists (VMap sub). auto.
  - intros [v [H1 H2]]. destruct v as [| | | | |sub]; try contradiction. exists sub. auto.
Qed.

Lemma get_path_cons k q m :
  get_path (k :: q) m = match lookup k m with Some w => vget q w | None => None end.
Proof.
  destruct q as [|k' q]; simpl.
  - destruct (lookup k m); reflexivity.
  - destruct (lookup k m) as [[]|]; reflexivity.
Qed.

Lemma vpath_map_cons q k v rest x :
  is_map x = false ->
  (vpath q (VMap ((k, v) :: rest)) x <->
   (exists q0, q = k :: q0 /\ vpath q0 v x) \/ vpath q (VMap rest) x).
Proof.
  intros Hx. destruct q as [|k0 q0]; simpl.
  - split; [intros ->; discriminate|]. intros [[q0 [H _]]| ->]; [discriminate|discriminate].
  - change (path_in (k0 :: q0) ((k, v) :: rest) x <->
            (exists q1, k0 :: q0 = k :: q1 /\ vpath q1 v x) \/ path_in (k0 :: q0) rest x).
    rewrite !path_in_cons. split.
    + intros [w [[Hw|Hw] Hp]].
      * inversion Hw; subst. left. exists q0. auto.
      * right. exists w. auto.
    + intros [[q1 [Hq Hp]]|[w [Hw Hp]]].
      * inversion Hq; subst. exists v. split; [left; reflexivity|exact Hp].
      * exists w. split; [right; exact Hw|exact Hp].
Qed.

(** What [flattenrec] hands to the adder: exactly the leaves of the tree,
    with their paths. *)
Lemma flatten_value_In v : forall keys p x,
  In (p, x) (flatten_value v keys) <->
  exists q, p = (keys ++ q)%list /\ vpath q v x /\ is_map x = false.
Proof.
  induction v as [v Hv|m IH] using value_ind'; intros keys p x.
  - rewrite flatten_value_leaf by exact Hv. simpl. split.
    + intros [H|[]]. inversion H; subst. exists []. rewrite app_nil_r. simpl. auto.
    + intros [q [-> [Hq Hx]]]. destruct q as [|k q].
      * simpl in Hq. subst. left. rewrite app_nil_r. reflexivity.
      * destruct v; simpl in Hv, Hq; try discriminate; contradiction.
  - induction m as [|[k v] m IHm].
    + rewrite flatten_value_nil. simpl. split; [contradiction|].
      intros [q [_ [Hq Hx]]]. destruct q as [|k q].
      * simpl in Hq. subst. discriminate.
      * change (path_in (k :: q) [] x) in Hq. apply path_in_cons in Hq as [w [[] _]].
    + inversion IH as [|? ? IHv IHrest]; subst. simpl in IHv.
      rewrite flatten_value_cons, in_app_iff, IHv, (IHm IHrest). split.
      * intros [[q [-> [Hq Hx]]]|[q [-> [Hq Hx]]]].
        -- exists (k :: q). rewrite <- app_assoc. split; [reflexivity|]. split; [|exact Hx].
           apply vpath_map_cons; [exact Hx|]. left. exists q. auto.
        -- exists q. split; [reflexivity|]. split; [|exact Hx].
           apply vpath_map_cons; [exact Hx|]. right. exact Hq.
      * intros [q [-> [Hq Hx]]]. apply (vpath_map_cons _ _ _ _ _ Hx) in Hq as [[q0 [-> Hq]]|Hq].
        -- left. exists q0. rewrite <- app_assoc. auto.
        -- right. exists q. auto.
Qed.

Lemma flattenrec_In m p x :
  In (p, x) (flattenrec m []) <-> path_in p m x /\ is_map x = false.
Proof.
  unfold flattenrec. rewrite flatten_value_In. split.
  - intros [q [-> [Hq Hx]]]. destruct q as [|k q]; simpl in Hq.
    + subst. discriminate.
    + auto.
  - intros [Hp Hx]. exists p. split; [reflexivity|]. split; [|exact Hx].
    destruct p; [contradiction|exact Hp].
Qed.

(** ** Paths in hierarchical maps *)

Lemma hierarchical_In m k sub : hierarchical m -> In (k, VMap sub) m -> hierarchical sub.
Proof. intros H Hin. exact (all_maps_In _ _ _ _ H Hin). Qed.

Lemma hierarchical_canonical m : hierarchical m -> canonical m.
Proof. intros H. apply all_maps_VMap in H as [H _]. exact H. Qed.

Lemma path_in_get p : forall m x, hierarchical m -> (path_in p m x <-> get_path p m = Some x).
Proof.
  induction p as [|k q IH]; intros m x Hh.
  - simpl. split; [contradiction|discriminate].
  - pose proof (hierarchical_canonical _ Hh) as Hc.
    rewrite path_in_cons, get_path_cons. split.
    + intros [v [Hin Hv]]. rewrite (canonical_In_lookup _ _ _ Hc Hin).
      destruct q as [|k' q]; [simpl in Hv |- *; congruence|].
      destruct v as [| | | | |sub]; try (simpl in Hv; contradiction).
      change (path_in (k' :: q) sub x) in Hv.
      change (get_path (k' :: q) sub = Some x).
      apply IH; [exact (hierarchical_In _ _ _ Hh Hin)|exact Hv].
    + destruct (lookup k m) as [v|] eqn:E; [|discriminate]. intros Hg.
      pose proof (lookup_In _ _ _ E) as Hin. exists v. split; [exact Hin|].
      destruct q as [|k' q]; [simpl in Hg |- *; congruence|].
      destruct v as [| | | | |sub]; try (simpl in Hg; discriminate).
      change (get_path (k' :: q) sub = Some x) in Hg.
      change (path_in (k' :: q) sub x).
      apply IH; [exact (hierarchical_In _ _ _ Hh Hin)|exact Hg].
Qed.

Lemma path_in_functional p m x1 x2 :
  hierarchical m -> path_in p m x1 -> path_in p m x2 -> x1 = x2.
Proof.
  intros Hh H1 H2. apply (path_in_get _ _ _ Hh) in H1. apply (path_in_get _ _ _ Hh) in H2.
  congruence.
Qed.

Lemma vpath_VMap_path_in p m x :
  is_map x = false -> (vpath p (VMap m) x <-> path_in p m x).
Proof.
  intros Hx. destruct p as [|k p].
  - simpl. split; [intros ->; discriminate|contradiction].
  - reflexivity.
Qed.

Lemma path_dot_free p : forall m x,
  dot_free_keys m -> path_in p m x -> Forall (fun s => has_dot s = false) p.
Proof.
  induction p as [|k q IH]; intros m x Hd Hp; [contradiction|].
  apply path_in_cons in Hp as [v [Hin Hv]].
  pose proof Hd as Hd'. apply all_maps_VMap in Hd' as [Hk _].
  rewrite Forall_forall in Hk. constructor; [exact (Hk _ Hin)|].
  destruct q as [|k' q]; [constructor|].
  destruct v as [| | | | |sub]; try (simpl in Hv; contradiction).
  apply (IH sub x); [exact (all_maps_In _ _ _ _ Hd Hin)|exact Hv].
Qed.

(** ** Reordering the entries of a tree *)

Lemma F2_in_left {A B} (R : A -> B -> Prop) l l' a :
  Forall2 R l l' -> In a l -> exists b, In b l' /\ R a b.
Proof.
  induction 1 as [|a0 b0 l l' Hab _ IH]; simpl; [contradiction|].
  intros [<-|Hin]; [eauto|]. destruct (IH Hin) as [b [Hb Hr]]. eauto.
Qed.

Lemma F2_in_right {A B} (R : A -> B -> Prop) l l' b :
  Forall2 R l l' -> In b l' -> exists a, In a l /\ R a b.
Proof.
  induction 1 as [|a0 b0 l l' Hab _ IH]; simpl; [contradiction|].
  intros [<-|Hin]; [eauto|]. destruct (IH Hin) as [a [Ha Hr]]. eauto.
Qed.

Lemma reorder_leaf v w : is_map v = false -> reorder v w -> w = v.
Proof. destruct v; simpl; auto; discriminate. Qed.

Lemma reorder_vpath v : forall w, reorder v w ->
  forall q x, is_map x = false -> (vpath q v x <-> vpath q w x).
Proof.
  induction v as [v Hv|m IH] using value_ind'; intros w Hr q x Hx.
  - rewrite (reorder_leaf _ _ Hv Hr). reflexivity.
  - apply reorder_VMap in Hr as (m' & m'' & -> & Hp & Hf).
    rewrite !vpath_VMap_path_in by exact Hx.
    destruct q as [|k q]; [simpl; tauto|].
    rewrite !path_in_cons. rewrite Forall_forall in IH. split.
    + intros [v [Hin Hv]].
      destruct (F2_in_left _ _ _ _ Hf Hin) as [[k' v''] [Hin'' [Hk Hr]]].
      simpl in Hk, Hr. subst k'. exists v''. split; [exact (Permutation_in _ Hp Hin'')|].
      apply (IH _ Hin v'' Hr q x Hx). exact Hv.
    + intros [v' [Hin Hv]]. apply (Permutation_in _ (Permutation_sym Hp)) in Hin.
      destruct (F2_in_right _ _ _ _ Hf Hin) as [[k0 v0] [Hin0 [Hk Hr]]].
      simpl in Hk, Hr. subst k0. exists v0. split; [exact Hin0|].
      apply (IH _ Hin0 v' Hr q x Hx). exact Hv.
Qed.

Lemma reorder_path_in t t1 p x :
  reorder (VMap t) (VMap t1) -> is_map x = false -> (path_in p t x <-> path_in p t1 x).
Proof.
  intros Hr Hx. rewrite <- !(vpath_VMap_path_in p _ x Hx). exact (reorder_vpath _ _ Hr p x Hx).
Qed.

Lemma reorder_refl v : reorder v v.
Proof.
  induction v as [v Hv|m IH] using value_ind'.
  - destruct v; simpl in *; auto; discriminate.
  - apply reorder_VMap. exists m, m. split; [reflexivity|]. split; [reflexivity|].
    induction IH as [|[k x] m Hx _ IHm]; constructor; simpl; auto.
Qed.

(** ** What [flatten] computes *)

Lemma canonical_flatten m : canonical (flatten m).
Proof. unfold flatten. apply canonical_insert_all. constructor. Qed.

Lemma flatten_lookup m k x :
  join_functional (flattenrec m []) ->
  (lookup k (flatten m) = Some x <->
   exists p, dotJoiner p = k /\ path_in p m x /\ is_map x = false).
Proof.
  intros Hj. unfold flatten. rewrite lookup_insert_all.
  destruct (lookup k (rev _)) as [y|] eqn:Ey.
  - apply lookup_In, in_rev, in_map_iff in Ey as [[p y'] [Hpy Hin]].
    simpl in Hpy. inversion Hpy; subst. split.
    + intros [= <-]. exists p. split; [reflexivity|]. apply flattenrec_In. exact Hin.
    + intros [p' [Hk Hp']]. apply flattenrec_In in Hp'. f_equal.
      exact (Hj _ _ _ _ Hin Hp' (eq_sym Hk)).
  - split; [simpl; discriminate|]. intros [p [<- Hp]]. apply flattenrec_In in Hp.
    assert (In (dotJoiner p, x) (rev (map (fun kv => (dotJoiner (fst kv), snd kv)) (flattenrec m []))))
      as Hin.
    { apply in_rev. rewrite rev_involutive. apply in_map_iff. exists (p, x). auto. }
    destruct (In_lookup_some _ _ _ Hin) as [v' [E _]]. congruence.
Qed.

Lemma dot_free_join p1 p2 m1 m2 x1 x2 :
  dot_free_keys m1 -> dot_free_keys m2 -> path_in p1 m1 x1 -> path_in p2 m2 x2 ->
  dotJoiner p1 = dotJoiner p2 -> p1 = p2.
Proof.
  intros D1 D2 H1 H2 Hj.
  rewrite <- (dotSlicer_dotJoiner p1), <- (dotSlicer_dotJoiner p2).
  - f_equal. exact Hj.
  - destruct p2; [contradiction|discriminate].
  - exact (path_dot_free _ _ _ D2 H2).
  - destruct p1; [contradiction|discriminate].
  - exact (path_dot_free _ _ _ D1 H1).
Qed.

Lemma join_functional_reorder t t1 :
  hierarchical t -> dot_free_keys t -> reorder (VMap t) (VMap t1) ->
  join_functional (flattenrec t1 []).
Proof.
  intros Hh Hd Hr p1 x1 p2 x2 H1 H2 Hj.
  apply flattenrec_In in H1 as [H1 L1]. apply flattenrec_In in H2 as [H2 L2].
  apply (reorder_path_in _ _ _ _ Hr L1) in H1. apply (reorder_path_in _ _ _ _ Hr L2) in H2.
  pose proof (dot_free_join _ _ _ _ _ _ Hd Hd H1 H2 Hj) as <-.
  exact (path_in_functional _ _ _ _ Hh H1 H2).
Qed.

Lemma flatten_reorder_lookup t t1 k x :
  hierarchical t -> dot_free_keys t -> reorder (VMap t) (VMap t1) ->
  (lookup k (flatten t1) = Some x <->
   exists p, dotJoiner p = k /\ path_in p t x /\ is_map x = false).
Proof.
  intros Hh Hd Hr. rewrite (flatten_lookup _ _ _ (join_functional_reorder _ _ Hh Hd Hr)).
  split; intros [p [Hk [Hp Hx]]]; exists p; repeat split; auto.
  - apply (reorder_path_in _ _ _ _ Hr Hx). exact Hp.
  - apply (reorder_path_in _ _ _ _ Hr Hx). exact Hp.
Qed.

(** ** One iteration of [unflatten]: [put_path] *)

Lemma get_path_empty r : get_path r [] = None.
Proof. destruct r as [|k r]; [reflexivity|]. rewrite get_path_cons. reflexivity. Qed.

Lemma vget_VMap q s : q <> [] -> vget q (VMap s) = get_path q s.
Proof. destruct q; [congruence|reflexivity]. Qed.

(** The three outcomes of [put_path (k :: q)] with [q] non-empty: the map
    descended into is a fresh one or the existing child. *)
Lemma put_path_step k q v m m' :
  q <> [] -> put_path (k :: q) v m = Some m' ->
  exists base sub',
    (lookup k m = None /\ base = [] \/ lookup k m = Some (VMap base)) /\
    put_path q v base = Some sub' /\ m' = insert k (VMap sub') m.
Proof.
  intros Hq. destruct q as [|k2 q]; [congruence|]. intros Hp.
  change (match lookup k m with
          | None => match put_path (k2 :: q) v [] with Some sub => Some (insert k (VMap sub) m) | None => None end
          | Some (VMap sub) => match put_path (k2 :: q) v sub with Some sub' => Some (insert k (VMap sub') m) | None => None end
          | Some _ => None
          end = Some m') in Hp. revert Hp.
  destruct (lookup k m) as [[| | | | |sub]|] eqn:E; try discriminate.
  - destruct (put_path (k2 :: q) v sub) as [sub'|] eqn:E'; [|discriminate].
    intros [= <-]. exists sub, sub'. auto.
  - destruct (put_path (k2 :: q) v []) as [sub'|] eqn:E'; [|discriminate].
    intros [= <-]. exists [], sub'. auto.
Qed.

Lemma put_path_get ks : forall v m m', put_path ks v m = Some m' ->
  get_path ks m' = Some v /\
  (forall r, incomparable r ks -> get_path r m' = get_path r m) /\
  (forall r, strict_prefix r ks -> r <> [] -> exists s, get_path r m' = Some (VMap s)) /\
  (forall e, e <> [] -> get_path (ks ++ e) m' = vget e v).
Proof.
  induction ks as [|k q IH]; intros v m m' Hp; [discriminate|].
  destruct (list_eq_dec string_dec q []) as [->|Hq].
  - injection Hp as <-. split; [|split; [|split]].
    + simpl. apply lookup_insert_eq.
    + intros [|k' r] Hinc; [reflexivity|]. rewrite !get_path_cons.
      destruct (string_dec k' k) as [->|Hne].
      * exfalso. destruct Hinc as [H1 [H2 H3]]. destruct r as [|x r]; [congruence|].
        apply H3. exists (x :: r). split; [discriminate|reflexivity].
      * rewrite lookup_insert_ne by exact Hne. reflexivity.
    + intros r Hs Hr. exfalso. destruct r as [|x r]; [congruence|].
      apply strict_prefix_cons in Hs as [_ Hs]. exact (strict_prefix_to_nil _ Hs).
    + intros e He. change ([k] ++ e)%list with (k :: e).
      rewrite get_path_cons, lookup_insert_eq. reflexivity.
  - destruct (put_path_step _ _ _ _ _ Hq Hp) as (base & sub' & Hb & Hs & ->).
    destruct (IH _ _ _ Hs) as (Ha & Hinc & Hpre & Hext).
    assert (Hbase : forall r, r <> [] ->
              match lookup k m with Some w => vget r w | None => None end = get_path r base).
    { intros r Hr. destruct Hb as [[-> ->]| ->]; [rewrite get_path_empty; reflexivity|].
      apply vget_VMap. exact Hr. }
    split; [|split; [|split]].
    + rewrite get_path_cons, lookup_insert_eq, vget_VMap by exact Hq. exact Ha.
    + intros [|k' r] Hinc'; [reflexivity|]. rewrite !get_path_cons.
      destruct (string_dec k' k) as [->|Hne].
      * apply incomparable_cons in Hinc'.
        destruct (list_eq_dec string_dec r []) as [->|Hr].
        -- exfalso. destruct Hinc' as [_ [H2 _]]. apply H2. apply strict_prefix_nil. exact Hq.
        -- rewrite lookup_insert_eq, vget_VMap, Hbase by exact Hr. apply Hinc. exact Hinc'.
      * rewrite lookup_insert_ne by exact Hne. reflexivity.
    + intros [|k' r] Hs' Hr; [congruence|].
      apply strict_prefix_cons in Hs' as [-> Hs'].
      destruct (list_eq_dec string_dec r []) as [->|Hr'].
      * exists sub'. simpl. apply lookup_insert_eq.
      * rewrite get_path_cons, lookup_insert_eq, vget_VMap by exact Hr'. exact (Hpre _ Hs' Hr').
    + intros e He. change ((k :: q) ++ e)%list with (k :: (q ++ e)).
      rewrite get_path_cons, lookup_insert_eq, vget_VMap.
      * exact (Hext _ He).
      * destruct q; [congruence|discriminate].
Qed.

(** [put_path] does not panic when no strict prefix of the path leads to a
    value other than a map. *)
Lemma put_path_total ks : forall v m,
  ks <> [] ->
  (forall r y, strict_prefix r ks -> r <> [] -> get_path r m = Some y -> is_map y = true) ->
  exists m', put_path ks v m = Some m'.
Proof.
  induction ks as [|k q IH]; intros v m Hne Hm; [congruence|].
  destruct (list_eq_dec string_dec q []) as [->|Hq]; [eexists; reflexivity|].
  destruct q as [|k2 q]; [congruence|].
  change (exists m', match lookup k m with
          | None => match put_path (k2 :: q) v [] with Some sub => Some (insert k (VMap sub) m) | None => None end
          | Some (VMap sub) => match put_path (k2 :: q) v sub with Some sub' => Some (insert k (VMap sub') m) | None => None end
          | Some _ => None
          end = Some m').
  destruct (lookup k m) as [y|] eqn:E.
  - assert (is_map y = true) as Hy.
    { apply (Hm [k] y); [|discriminate|exact E].
      apply strict_prefix_cons. split; [reflexivity|]. apply strict_prefix_nil. discriminate. }
    destruct y as [| | | | |sub]; try discriminate.
    destruct (IH v sub) as [sub' Hsub']; [discriminate| |].
    + intros r y Hs Hr Hg. apply (Hm (k :: r) y).
      * apply strict_prefix_cons. auto.
      * discriminate.
      * rewrite get_path_cons, E, vget_VMap by exact Hr. exact Hg.
    + rewrite Hsub'. eexists. reflexivity.
  - destruct (IH v []) as [sub' Hsub']; [discriminate| |].
    + intros r y _ _ Hg. rewrite get_path_empty in Hg. discriminate.
    + rewrite Hsub'. eexists. reflexivity.
Qed.

Lemma In_insert {A} k (x : A) m kv : In kv (insert k x m) -> kv = (k, x) \/ In kv m.
Proof.
  induction m as [|[k0 v0] m IH]; simpl.
  - intros [<-|[]]. auto.
  - destruct (String_as_OT.compare k k0); simpl.
    + intros [<-|H]; auto.
    + intros [<-|[H|H]]; auto.
    + intros [<-|H]; [auto|]. destruct (IH H); auto.
Qed.

(** A property of every map that holds of the empty map and survives the
    insertion of the keys of the path holds after [put_path]. *)
Lemma put_path_all_maps (P : list (string * value) -> Prop) (Q : string -> Prop) ks :
  P [] -> (forall k x m, Q k -> P m -> P (insert k x m)) ->
  forall v m m', Forall Q ks -> all_maps P v -> all_maps P (VMap m) ->
  put_path ks v m = Some m' -> all_maps P (VMap m').
Proof.
  intros P0 Pins. induction ks as [|k q IH]; intros v m m' Hq Hv Hm Hp; [discriminate|].
  inversion Hq as [|? ? Hk Hq']; subst.
  assert (Hins : forall x, all_maps P x -> all_maps P (VMap (insert k x m))).
  { intros x Hx. apply all_maps_VMap in Hm as [Hm1 Hm2]. apply all_maps_VMap. split.
    - exact (Pins _ _ _ Hk Hm1).
    - rewrite Forall_forall in Hm2 |- *. intros kv Hin.
      destruct (In_insert _ _ _ _ Hin) as [->|Hin']; auto. }
  destruct (list_eq_dec string_dec q []) as [->|Hne].
  - injection Hp as <-. exact (Hins _ Hv).
  - destruct (put_path_step _ _ _ _ _ Hne Hp) as (base & sub' & Hb & Hs & ->).
    apply Hins. apply (IH v base); auto.
    destruct Hb as [[_ ->]|Hb].
    + apply all_maps_VMap. split; [exact P0|constructor].
    + exact (all_maps_In _ _ _ _ Hm (lookup_In _ _ _ Hb)).
Qed.

(** ** The loop of [unflatten] *)

Lemma loop_inv_nil : loop_inv [] [].
Proof.
  split; [|split].
  - intros p x [].
  - intros r p x [].
  - intros r y H. rewrite get_path_empty in H. discriminate.
Qed.

Lemma loop_inv_step D acc acc' ks v :
  loop_inv D acc -> (forall p x, In (p, x) D -> incomparable p ks) ->
  put_path ks v acc = Some acc' -> loop_inv (D ++ [(ks, v)]) acc'.
Proof.
  intros (IA & IB & IC) Hinc Hp.
  destruct (put_path_get _ _ _ _ Hp) as (Ha & Hb & Hc & Hd).
  assert (Hsym : forall p x, In (p, x) D -> incomparable ks p).
  { intros p x Hin. destruct (Hinc _ _ Hin) as [H1 [H2 H3]]. split; [auto|]. auto. }
  split; [|split].
  - intros p x Hin. apply in_app_iff in Hin as [Hin|[Hin|[]]].
    + rewrite Hb by exact (Hinc _ _ Hin). exact (IA _ _ Hin).
    + inversion Hin; subst. exact Ha.
  - intros r p x Hin Hs Hr. apply in_app_iff in Hin as [Hin|[Hin|[]]].
    + destruct (Hinc _ _ Hin) as [N1 [N2 N3]].
      destruct (prefix_cases r ks) as [->|[Hrk|[Hkr|Hri]]].
      * contradiction.
      * exact (Hc _ Hrk Hr).
      * exfalso. exact (N3 (strict_prefix_trans _ _ _ Hkr Hs)).
      * rewrite Hb by exact Hri. exact (IB _ _ _ Hin Hs Hr).
    + inversion Hin; subst. exact (Hc _ Hs Hr).
  - intros r y Hg. destruct (prefix_cases r ks) as [->|[Hrk|[[e [He ->]]|Hri]]].
    + left. apply in_app_iff. right. left. congruence.
    + destruct (list_eq_dec string_dec r []) as [->|Hr]; [simpl in Hg; discriminate|].
      destruct (Hc _ Hrk Hr) as [s Hs]. right. left. exists ks, v.
      split; [apply in_app_iff; right; left; reflexivity|]. split; [exact Hrk|].
      rewrite Hs in Hg. inversion Hg. reflexivity.
    + right. right. exists ks, v, e. rewrite (Hd _ He) in Hg.
      split; [apply in_app_iff; right; left; reflexivity|]. auto.
    + rewrite (Hb _ Hri) in Hg.
      destruct (IC _ _ Hg) as [H|[(p & x & H1 & H2 & H3)|(p & x & e & H1 & H2 & H3 & H4)]].
      * left. apply in_app_iff. auto.
      * right. left. exists p, x. rewrite in_app_iff. auto.
      * right. right. exists p, x, e. rewrite in_app_iff. auto.
Qed.

Lemma loop_inv_total D acc ks :
  loop_inv D acc -> (forall p x, In (p, x) D -> ~ strict_prefix p ks) ->
  forall r y, strict_prefix r ks -> r <> [] -> get_path r acc = Some y -> is_map y = true.
Proof.
  intros (_ & _ & IC) Hnp r y Hs Hr Hg.
  destruct (IC _ _ Hg) as [H|[(p & x & _ & _ & H)|(p & x & e & H1 & H2 & H3 & _)]].
  - exfalso. exact (Hnp _ _ H Hs).
  - exact H.
  - exfalso. apply (Hnp _ _ H1). apply (strict_prefix_trans _ r); [|exact Hs].
    exists e. auto.
Qed.

Lemma in_paths k x l : In (k, x) l -> In (dotSlicer k, x) (paths l).
Proof. intros H. apply in_map_iff. exists (k, x). auto. Qed.

Lemma paths_in p x l : In (p, x) (paths l) -> exists k, p = dotSlicer k /\ In (k, x) l.
Proof.
  intros H. apply in_map_iff in H as [[k y] [Hkv Hin]]. simpl in Hkv.
  inversion Hkv; subst. eauto.
Qed.

Lemma paths_app l1 l2 : paths (l1 ++ l2) = (paths l1 ++ paths l2)%list.
Proof. apply map_app. Qed.

Lemma unflatten_loop_spec rest : forall done acc,
  NoDup (map fst (done ++ rest)) -> prefix_free (done ++ rest) = true ->
  loop_inv (paths done) acc ->
  exists u, unflatten_loop rest acc = Some u /\ loop_inv (paths (done ++ rest)) u.
Proof.
  induction rest as [|[k v] rest IH]; intros done acc Hnd Hpf Hinv.
  - exists acc. rewrite app_nil_r. auto.
  - rewrite prefix_free_spec in Hpf.
    assert (Hk : ~ In k (map fst done)).
    { rewrite map_app in Hnd. simpl in Hnd. apply NoDup_remove_2 in Hnd.
      rewrite in_app_iff in Hnd. tauto. }
    assert (Hinc : forall p x, In (p, x) (paths done) -> incomparable p (dotSlicer k)).
    { intros p x Hin. apply paths_in in Hin as [k' [-> Hin]].
      assert (Ha : In (k', x) (done ++ (k, v) :: rest)) by (apply in_app_iff; auto).
      assert (Hb : In (k, v) (done ++ (k, v) :: rest)) by (apply in_app_iff; right; left; auto).
      split; [|split].
      - intros E. apply dotSlicer_inj in E. subst k'. apply Hk.
        apply in_map_iff. exists (k, x). auto.
      - exact (Hpf _ _ Ha Hb).
      - exact (Hpf _ _ Hb Ha). }
    destruct (put_path_total (dotSlicer k) v acc (dotSlicer_not_nil k)) as [acc' Hacc'].
    { apply (loop_inv_total _ _ _ Hinv). intros p x Hin. exact (proj1 (proj2 (Hinc _ _ Hin))). }
    simpl. rewrite Hacc'.
    pose proof (loop_inv_step _ _ _ _ _ Hinv Hinc Hacc') as Hinv'.
    replace (paths done ++ [(dotSlicer k, v)])%list with (paths (done ++ [(k, v)])) in Hinv'
      by (rewrite paths_app; reflexivity).
    replace (done ++ (k, v) :: rest)%list with ((done ++ [(k, v)]) ++ rest)%list in *
      by (rewrite <- app_assoc; reflexivity).
    apply IH; [exact Hnd| |exact Hinv'].
    apply prefix_free_spec. exact Hpf.
Qed.

Lemma unflatten_in_spec order :
  NoDup (map fst order) -> prefix_free order = true ->
  exists u, unflatten_in order = Some u /\ loop_inv (paths order) u.
Proof.
  intros Hnd Hpf. apply (unflatten_loop_spec order []); [exact Hnd|exact Hpf|exact loop_inv_nil].
Qed.

Lemma unflatten_loop_all_maps (P : list (string * value) -> Prop) order :
  P [] -> (forall k x m, has_dot k = false -> P m -> P (insert k x m)) ->
  Forall (fun kv => all_maps P (snd kv)) order ->
  forall acc u, all_maps P (VMap acc) -> unflatten_loop order acc = Some u -> all_maps P (VMap u).
Proof.
  intros P0 Pins. induction 1 as [|[k v] order Hv _ IH]; intros acc u Hacc Hl.
  - injection Hl as <-. exact Hacc.
  - simpl in Hl. destruct (put_path (dotSlicer k) v acc) as [acc'|] eqn:E; [|discriminate].
    apply (IH acc'); [|exact Hl].
    exact (put_path_all_maps P _ _ P0 Pins _ _ _ (dotSlicer_segments k) Hv Hacc E).
Qed.

(** ** Trees determined by their paths *)

Lemma vget_leaf q v : q <> [] -> is_map v = false -> vget q v = None.
Proof. destruct q; [congruence|]. destruct v; simpl; congruence. Qed.

Lemma get_path_app r : forall e m, r <> [] -> e <> [] ->
  get_path (r ++ e) m = match get_path r m with Some (VMap s) => get_path e s | _ => None end.
Proof.
  induction r as [|k r IH]; intros e m Hr He; [congruence|].
  change ((k :: r) ++ e)%list with (k :: (r ++ e)). rewrite !get_path_cons.
  assert (Hre : (r ++ e)%list <> []) by (destruct r; [exact He|discriminate]).
  destruct (lookup k m) as [w|]; [|reflexivity].
  destruct (list_eq_dec string_dec r []) as [->|Hr'].
  - simpl. destruct w as [| | | | |s]; try (apply vget_leaf; [exact He|reflexivity]).
    apply vget_VMap. exact He.
  - destruct w as [| | | | |s];
      try (rewrite !vget_leaf by (assumption || reflexivity); reflexivity).
    rewrite !vget_VMap by assumption. apply IH; assumption.
Qed.

Lemma get_path_nil m : get_path [] m = None.
Proof. reflexivity. Qed.

Lemma has_leaf v : all_maps (fun s => s <> []) v ->
  exists e x, vget e v = Some x /\ is_map x = false.
Proof.
  induction v as [v Hv|m IH] using value_ind'; intros Hne.
  - exists [], v. auto.
  - apply all_maps_VMap in Hne as [Hm Hch].
    destruct m as [|[k w] m]; [congruence|].
    inversion IH as [|? ? IHw _]; subst. inversion Hch as [|? ? Hw _]; subst.
    destruct (IHw Hw) as [e [x [Hg Hx]]]. exists (k :: e), x. split; [|exact Hx].
    change (get_path (k :: e) ((k, w) :: m) = Some x).
    rewrite get_path_cons. simpl. rewrite String.eqb_refl. exact Hg.
Qed.

Lemma no_empty_node_get r : forall t s,
  no_empty_node t -> get_path r t = Some (VMap s) -> all_maps (fun s => s <> []) (VMap s).
Proof.
  induction r as [|k r IH]; intros t s Hne Hg; [discriminate|].
  rewrite get_path_cons in Hg. destruct (lookup k t) as [w|] eqn:E; [|discriminate].
  pose proof (lookup_In _ _ _ E) as Hin. unfold no_empty_node in Hne.
  rewrite Forall_forall in Hne. specialize (Hne _ Hin). simpl in Hne.
  destruct (list_eq_dec string_dec r []) as [->|Hr].
  - simpl in Hg. inversion Hg; subst. exact Hne.
  - destruct w as [| | | | |s0]; try (rewrite vget_leaf in Hg by (assumption || reflexivity); discriminate).
    rewrite vget_VMap in Hg by exact Hr. apply (IH s0); [|exact Hg].
    apply all_maps_VMap in Hne as [_ Hne]. exact Hne.
Qed.

(** Two hierarchical maps with the same leaves and the same map nodes are
    equal. *)
Lemma tree_ext_value v : forall t u, v = VMap t -> hierarchical t -> hierarchical u ->
  (forall p x, is_map x = false -> (get_path p t = Some x <-> get_path p u = Some x)) ->
  (forall p, (exists s, get_path p t = Some (VMap s)) <-> (exists s, get_path p u = Some (VMap s))) ->
  t = u.
Proof.
  induction v as [v Hv|m IH] using value_ind'; intros t u Ev Ht Hu H1 H2.
  - subst. discriminate.
  - injection Ev as <-. rewrite Forall_forall in IH.
    apply canonical_ext; [exact (hierarchical_canonical _ Ht)|exact (hierarchical_canonical _ Hu)|].
    intros k. destruct (lookup k m) as [x|] eqn:Et.
    + destruct (is_map x) eqn:Hx.
      * destruct x as [| | | | |s]; try discriminate.
        destruct (proj1 (H2 [k]) (ex_intro _ s Et)) as [s' Eu].
        change (lookup k u = Some (VMap s')) in Eu. rewrite Eu. f_equal. f_equal.
        pose proof (lookup_In _ _ _ Et) as Int. pose proof (lookup_In _ _ _ Eu) as Inu.
        assert (Hsub : forall p, p <> [] -> get_path p s = get_path (k :: p) m /\
                                             get_path p s' = get_path (k :: p) u).
        { intros p Hp. rewrite !get_path_cons, Et, Eu, !vget_VMap by exact Hp. auto. }
        apply (IH _ Int s s' eq_refl).
        -- exact (hierarchical_In _ _ _ Ht Int).
        -- exact (hierarchical_In _ _ _ Hu Inu).
        -- intros p y Hy. destruct (list_eq_dec string_dec p []) as [->|Hp]; [reflexivity|].
           destruct (Hsub p Hp) as [-> ->]. apply H1. exact Hy.
        -- intros p. destruct (list_eq_dec string_dec p []) as [->|Hp].
           ++ split; intros [s0 Hs0]; discriminate.
           ++ destruct (Hsub p Hp) as [-> ->]. apply H2.
      * symmetry. exact (proj1 (H1 [k] x Hx) Et).
    + destruct (lookup k u) as [y|] eqn:Eu; [|reflexivity]. exfalso.
      destruct (is_map y) eqn:Hy.
      * destruct y as [| | | | |s]; try discriminate.
        destruct (proj2 (H2 [k]) (ex_intro _ s Eu)) as [s' Et'].
        change (lookup k m = Some (VMap s')) in Et'. congruence.
      * pose proof (proj2 (H1 [k] y Hy) Eu) as Et'.
        change (lookup k m = Some y) in Et'. congruence.
Qed.

Lemma tree_ext t u : hierarchical t -> hierarchical u ->
  (forall p x, is_map x = false -> (get_path p t = Some x <-> get_path p u = Some x)) ->
  (forall p, (exists s, get_path p t = Some (VMap s)) <-> (exists s, get_path p u = Some (VMap s))) ->
  t = u.
Proof. apply (tree_ext_value (VMap t)). reflexivity. Qed.

(** ** Go maps as flat maps *)

Lemma canonical_NoDup (m : gomap value) : canonical m -> NoDup (map fst m).
Proof.
  unfold canonical. induction 1 as [|[k v] m _ IH Hall]; simpl; constructor; [|exact IH].
  intros Hin. apply in_map_iff in Hin as [[k' v'] [Hk Hin]]. simpl in Hk. subst k'.
  rewrite Forall_forall in Hall. specialize (Hall _ Hin). exact (skey_lt_irrefl _ Hall).
Qed.

Lemma prefix_free_perm l l' : Permutation l l' -> prefix_free l = true -> prefix_free l' = true.
Proof.
  intros Hp Hpf. rewrite prefix_free_spec in Hpf |- *. intros a b Ha Hb.
  apply Hpf; apply (Permutation_in _ (Permutation_sym Hp)); assumption.
Qed.

Lemma NoDup_perm_keys (l l' : list (string * value)) :
  Permutation l l' -> NoDup (map fst l) -> NoDup (map fst l').
Proof. intros Hp. apply Permutation_NoDup. apply Permutation_map. exact Hp. Qed.

Lemma leaf_values_spec l : leaf_values l = true <-> forall k x, In (k, x) l -> is_map x = false.
Proof.
  unfold leaf_values. rewrite forallb_forall. split.
  - intros H k x Hin. apply negb_true_iff. exact (H _ Hin).
  - intros H [k x] Hin. apply negb_true_iff. exact (H _ _ Hin).
Qed.

(** The map built by [unflatten] from leaf values is hierarchical and its
    keys are segments of the flat keys. *)
Lemma unflatten_hierarchical order u :
  (forall k x, In (k, x) order -> is_map x = false) ->
  unflatten_in order = Some u -> hierarchical u /\ dot_free_keys u.
Proof.
  intros Hl Hu.
  assert (Hleaf : forall P, Forall (fun kv => all_maps P (snd kv)) order).
  { intros P. apply Forall_forall. intros [k x] Hin. specialize (Hl _ _ Hin).
    destruct x; simpl in *; try discriminate; exact I. }
  split.
  - apply (unflatten_loop_all_maps canonical order) with (acc := []); auto.
    + constructor.
    + intros k x m _ Hm. apply canonical_insert. exact Hm.
    + apply all_maps_VMap. split; constructor.
  - apply (unflatten_loop_all_maps (Forall (fun kv => has_dot (fst kv) = false)) order)
      with (acc := []); auto.
    + intros k x m Hk Hm. apply Forall_insert; [exact Hk|exact Hm].
    + apply all_maps_VMap. split; constructor.
Qed.

(** ** The leaves and the map nodes of the result of [unflatten] *)

Lemma unflatten_leaf_get order u p x :
  (forall k y, In (k, y) order -> is_map y = false) ->
  loop_inv (paths order) u -> is_map x = false ->
  (get_path p u = Some x <-> In (p, x) (paths order)).
Proof.
  intros Hl (IA & _ & IC) Hx. split; [|apply IA].
  intros Hg. destruct (IC _ _ Hg) as [H|[(q & y & _ & _ & H)|(q & y & e & H1 & H2 & _ & H4)]].
  - exact H.
  - congruence.
  - apply paths_in in H1 as [k [_ H1]]. rewrite (vget_leaf _ _ H2 (Hl _ _ H1)) in H4. discriminate.
Qed.

Lemma unflatten_map_get order u r :
  (forall k y, In (k, y) order -> is_map y = false) ->
  loop_inv (paths order) u ->
  ((exists s, get_path r u = Some (VMap s)) <->
   r <> [] /\ exists p x, In (p, x) (paths order) /\ strict_prefix r p).
Proof.
  intros Hl (_ & IB & IC). split.
  - intros [s Hg]. split; [intros ->; discriminate|].
    destruct (IC _ _ Hg) as [H|[(q & y & H1 & H2 & _)|(q & y & e & H1 & H2 & _ & H4)]].
    + apply paths_in in H as [k [_ H]]. specialize (Hl _ _ H). discriminate.
    + eauto.
    + apply paths_in in H1 as [k [_ H1]]. rewrite (vget_leaf _ _ H2 (Hl _ _ H1)) in H4. discriminate.
  - intros [Hr (p & x & Hin & Hs)]. exact (IB _ _ _ Hin Hs Hr).
Qed.


(* ================================================================= *)
(** * The claims *)

(** ** Flatten and unflatten *)

(** C1: a flat map (non-empty key strings to leaf values) in which no key's
    segment path is a strict prefix of another's comes back unchanged from
    [unflatten] followed by [flatten], whatever order each [range] takes:
    [unflatten] succeeds, visiting the keys in any order [order], and
    [flatten] of its result, traversed in any order [u'], is the map. *)
Theorem flatten_unflatten_roundtrip (fm order : gomap value) :
  canonical fm -> leaf_values fm = true -> prefix_free fm = true -> Permutation order fm ->
  exists u, unflatten_in order = Some u /\
            forall u', reorder (VMap u) (VMap u') -> flatten u' = fm.
Proof.
  intros Hc Hlv Hpf Hp.
  assert (Hnd : NoDup (map fst order))
    by exact (NoDup_perm_keys _ _ (Permutation_sym Hp) (canonical_NoDup _ Hc)).
  assert (Hpf' : prefix_free order = true) by exact (prefix_free_perm _ _ (Permutation_sym Hp) Hpf).
  assert (Hl : forall k y, In (k, y) order -> is_map y = false).
  { intros k y Hin. apply (proj1 (leaf_values_spec fm) Hlv k). exact (Permutation_in _ Hp Hin). }
  destruct (unflatten_in_spec order Hnd Hpf') as [u [Hu Hinv]].
  exists u. split; [exact Hu|].
  destruct (unflatten_hierarchical order u Hl Hu) as [Hh Hd].
  intros u' Hr. apply canonical_ext; [apply canonical_flatten|exact Hc|].
  intros k. apply option_ext. intros x.
  rewrite (flatten_reorder_lookup u u' k x Hh Hd Hr). split.
  - intros [p [<- [Hpth Hx]]]. apply (path_in_get _ _ _ Hh) in Hpth.
    apply (unflatten_leaf_get order u p x Hl Hinv Hx) in Hpth.
    apply paths_in in Hpth as [k' [-> Hin]]. rewrite dotJoiner_dotSlicer.
    apply canonical_In_lookup; [exact Hc|]. exact (Permutation_in _ Hp Hin).
  - intros Hlk. apply lookup_In in Hlk.
    assert (Hx : is_map x = false) by exact (proj1 (leaf_values_spec fm) Hlv _ _ Hlk).
    exists (dotSlicer k). split; [apply dotJoiner_dotSlicer|]. split; [|exact Hx].
    apply (path_in_get _ _ _ Hh). apply (unflatten_leaf_get order u _ x Hl Hinv Hx).
    apply in_paths. exact (Permutation_in _ (Permutation_sym Hp) Hlk).
Qed.

Lemma flatten_unflatten_roundtrip_witness :
  canonical fm_ab /\ leaf_values fm_ab = true /\ prefix_free fm_ab = true /\
  Permutation (rev fm_ab) fm_ab /\
  exists u, unflatten_in (rev fm_ab) = Some u /\
            forall u', reorder (VMap u) (VMap u') -> flatten u' = fm_ab.
Proof.
  assert (Hc : canonical fm_ab) by (unfold canonical, fm_ab; repeat constructor).
  assert (Hp : Permutation (rev fm_ab) fm_ab) by (apply Permutation_sym, Permutation_rev).
  split; [exact Hc|]. split; [reflexivity|]. split; [reflexivity|]. split; [exact Hp|].
  apply (flatten_unflatten_roundtrip fm_ab (rev fm_ab) Hc eq_refl eq_refl Hp).
Defined.

(** C10: when no key's segment path is a strict prefix of another's,
    [unflatten] of the flat map runs to completion for every order in which
    [range] may visit the keys: the type assertion on an existing node never
    panics.  ([unflatten_panics_on_prefix] shows a failing order when the
    condition does not hold.) *)
Theorem unflatten_total (fm order : gomap value) :
  canonical fm -> prefix_free fm = true -> Permutation order fm ->
  exists u, unflatten_in order = Some u.
Proof.
  intros Hc Hpf Hp.
  destruct (unflatten_in_spec order) as [u [Hu _]].
  - exact (NoDup_perm_keys _ _ (Permutation_sym Hp) (canonical_NoDup _ Hc)).
  - exact (prefix_free_perm _ _ (Permutation_sym Hp) Hpf).
  - exists u. exact Hu.
Qed.

Lemma unflatten_total_witness :
  canonical fm_map_values /\ prefix_free fm_map_values = true /\
  Permutation (rev fm_map_values) fm_map_values /\
  exists u, unflatten_in (rev fm_map_values) = Some u.
Proof.
  assert (Hc : canonical fm_map_values) by (unfold canonical, fm_map_values; repeat constructor).
  assert (Hp : Permutation (rev fm_map_values) fm_map_values)
    by (apply Permutation_sym, Permutation_rev).
  split; [exact Hc|]. split; [reflexivity|]. split; [exact Hp|].
  exact (unflatten_total fm_map_values (rev fm_map_values) Hc eq_refl Hp).
Defined.

(** Without the condition: ["a"] before ["a.b"] makes the assertion on
    the number stored at ["a"] fail. *)
Example unflatten_panics_on_prefix :
  unflatten_in [("a", VNumber 1); ("a.b", VNumber 2)] = None.
Proof. reflexivity. Qed.

(** C2 (as stated, for string keys): refuted by a key that contains the
    joiner; the round trip splits it into two levels. *)

Lemma unflatten_flatten_tree_counterexample :
  hierarchical t_dotted /\ no_empty_node t_dotted /\
  unflatten (flatten t_dotted) = Some [("a", VMap [("b", VNumber 1)])] /\
  unflatten (flatten t_dotted) <> Some t_dotted.
Proof.
  split; [unfold hierarchical, canonical, t_dotted; cbn; repeat constructor|].
  split; [unfold no_empty_node, t_dotted; repeat constructor|].
  split; [reflexivity|]. vm_compute. discriminate.
Qed.

(** C2 (amended): a hierarchical map with no empty-mapping node below the
    root and no ['.'] in any key comes back unchanged from [flatten]
    followed by [unflatten], whatever order [flatten] traverses it in ([t'])
    and whatever order [unflatten] visits the flat keys in ([order]). *)
Theorem unflatten_flatten_tree (t t' order : gomap value) :
  hierarchical t -> no_empty_node t -> dot_free_keys t ->
  reorder (VMap t) (VMap t') -> Permutation order (flatten t') ->
  unflatten_in order = Some t.
Proof.
  intros Hh Hne Hd Hr Hp.
  set (fm := flatten t') in *.
  assert (Hc : canonical fm) by apply canonical_flatten.
  assert (Hfm : forall k x, In (k, x) fm <->
            exists p, k = dotJoiner p /\ get_path p t = Some x /\ is_map x = false).
  { intros k x. split.
    - intros Hin. apply (canonical_In_lookup _ _ _ Hc) in Hin.
      apply (flatten_reorder_lookup _ _ _ _ Hh Hd Hr) in Hin as [p [Hk [Hpth Hx]]].
      exists p. split; [auto|]. split; [|exact Hx]. apply path_in_get; assumption.
    - intros [p [-> [Hg Hx]]]. apply lookup_In. apply (flatten_reorder_lookup _ _ _ _ Hh Hd Hr).
      exists p. split; [reflexivity|]. split; [|exact Hx]. apply path_in_get; assumption. }
  assert (Hsl : forall p x, get_path p t = Some x -> dotSlicer (dotJoiner p) = p).
  { intros p x Hg. apply dotSlicer_dotJoiner.
    - intros ->. simpl in Hg. discriminate.
    - apply (path_dot_free p t x Hd). apply path_in_get; assumption. }
  assert (Hpf : prefix_free fm = true).
  { apply prefix_free_spec. intros [k1 x1] [k2 x2] H1 H2 Hs. simpl in Hs.
    apply Hfm in H1 as [p1 [-> [G1 L1]]]. apply Hfm in H2 as [p2 [-> [G2 L2]]].
    rewrite (Hsl _ _ G1), (Hsl _ _ G2) in Hs. destruct Hs as [e [He ->]].
    rewrite get_path_app in G2; [|intros ->; simpl in G1; discriminate|exact He].
    rewrite G1 in G2. destruct x1; simpl in *; discriminate. }
  assert (Hnd : NoDup (map fst order))
    by exact (NoDup_perm_keys _ _ (Permutation_sym Hp) (canonical_NoDup _ Hc)).
  assert (Hpf' : prefix_free order = true) by exact (prefix_free_perm _ _ (Permutation_sym Hp) Hpf).
  assert (Hl : forall k y, In (k, y) order -> is_map y = false).
  { intros k y Hin. apply (Permutation_in _ Hp) in Hin. apply Hfm in Hin as [p [_ [_ Hx]]].
    exact Hx. }
  destruct (unflatten_in_spec order Hnd Hpf') as [u [Hu Hinv]].
  rewrite Hu. f_equal. symmetry.
  destruct (unflatten_hierarchical order u Hl Hu) as [Hhu _].
  assert (Hleaf : forall p x, is_map x = false -> (get_path p t = Some x <-> get_path p u = Some x)).
  { intros p x Hx. rewrite (unflatten_leaf_get order u p x Hl Hinv Hx). split.
    - intros Hg. rewrite <- (Hsl _ _ Hg). apply in_paths.
      apply (Permutation_in _ (Permutation_sym Hp)). apply Hfm. exists p. auto.
    - intros Hin. apply paths_in in Hin as [k [-> Hin]]. apply (Permutation_in _ Hp) in Hin.
      apply Hfm in Hin as [p' [-> [Hg _]]]. rewrite (Hsl _ _ Hg). exact Hg. }
  apply tree_ext; [exact Hh|exact Hhu|exact Hleaf|].
  intros r. rewrite (unflatten_map_get order u r Hl Hinv). split.
  - intros [s Hg]. split; [intros ->; simpl in Hg; discriminate|].
    destruct (has_leaf _ (no_empty_node_get _ _ _ Hne Hg)) as [e [x [Hv Hx]]].
    assert (He : e <> []).
    { intros ->. simpl in Hv. inversion Hv; subst. simpl in Hx. discriminate. }
    rewrite vget_VMap in Hv by exact He.
    assert (Hre : get_path (r ++ e) t = Some x).
    { rewrite get_path_app, Hg; [exact Hv| |exact He]. intros ->. simpl in Hg. discriminate. }
    exists (r ++ e)%list, x. split.
    + apply (unflatten_leaf_get order u _ x Hl Hinv Hx). apply Hleaf; assumption.
    + exists e. auto.
  - intros [Hr0 (p & x & Hin & [e [He ->]])].
    pose proof Hin as Hin'. apply paths_in in Hin' as [k [_ Hk]].
    assert (Hx : is_map x = false) by exact (Hl _ _ Hk).
    apply (unflatten_leaf_get order u _ x Hl Hinv Hx) in Hin.
    apply (Hleaf _ _ Hx) in Hin.
    rewrite get_path_app in Hin by assumption.
    destruct (get_path r t) as [[| | | | |s]|]; try discriminate. eauto.
Qed.

Lemma unflatten_flatten_tree_witness :
  hierarchical t_abd /\ no_empty_node t_abd /\ dot_free_keys t_abd /\
  reorder (VMap t_abd) (VMap t_abd) /\ Permutation (flatten t_abd) (flatten t_abd) /\
  unflatten_in (flatten t_abd) = Some t_abd.
Proof.
  assert (Hh : hierarchical t_abd) by (unfold hierarchical, canonical, t_abd; cbn; repeat constructor).
  assert (Hn : no_empty_node t_abd) by (unfold no_empty_node, t_abd; cbn; repeat constructor; discriminate).
  assert (Hd : dot_free_keys t_abd) by (unfold dot_free_keys, t_abd; cbn; repeat constructor).
  pose proof (reorder_refl (VMap t_abd)) as Hr.
  pose proof (Permutation_refl (flatten t_abd)) as Hp.
  split; [exact Hh|]. split; [exact Hn|]. split; [exact Hd|]. split; [exact Hr|]. split; [exact Hp|].
  exact (unflatten_flatten_tree t_abd t_abd (flatten t_abd) Hh Hn Hd Hr Hp).
Defined.

(** C9 (as stated, for every hierarchical map): refuted when a key
    contains the joiner, since two leaves then share a flat key and the
    one traversed last wins. *)

Lemma flatten_order_independent_counterexample :
  hierarchical t_clash /\
  reorder (VMap t_clash) (VMap t_clash) /\ reorder (VMap t_clash) (VMap t_clash_swapped) /\
  flatten t_clash = [("a.b", VNumber 1)] /\ flatten t_clash_swapped = [("a.b", VNumber 2)].
Proof.
  split; [unfold hierarchical, canonical, t_clash; cbn; repeat constructor|].
  split; [apply reorder_refl|]. split; [|split; reflexivity].
  apply reorder_VMap. exists t_clash_swapped, t_clash. split; [reflexivity|]. split.
  - apply perm_swap.
  - repeat constructor; apply reorder_refl.
Qed.

(** C9 (amended): for a hierarchical map with no ['.'] in any key, any two
    traversal orders of the sibling keys at each level ([t1], [t2]) give
    the same flat map. *)
Theorem flatten_order_independent (t t1 t2 : gomap value) :
  hierarchical t -> dot_free_keys t ->
  reorder (VMap t) (VMap t1) -> reorder (VMap t) (VMap t2) -> flatten t1 = flatten t2.
Proof.
  intros Hh Hd H1 H2. apply canonical_ext; [apply canonical_flatten|apply canonical_flatten|].
  intros k. apply option_ext. intros x.
  rewrite (flatten_reorder_lookup _ _ _ _ Hh Hd H1), (flatten_reorder_lookup _ _ _ _ Hh Hd H2).
  reflexivity.
Qed.

Lemma flatten_order_independent_witness :
  hierarchical t_abd /\ dot_free_keys t_abd /\
  reorder (VMap t_abd) (VMap t_abd) /\ reorder (VMap t_abd) (VMap t_abd_swapped) /\
  flatten t_abd = flatten t_abd_swapped.
Proof.
  assert (Hh : hierarchical t_abd) by (unfold hierarchical, canonical, t_abd; cbn; repeat constructor).
  assert (Hd : dot_free_keys t_abd) by (unfold dot_free_keys, t_abd; cbn; repeat constructor).
  pose proof (reorder_refl (VMap t_abd)) as H1.
  assert (H2 : reorder (VMap t_abd) (VMap t_abd_swapped)).
  { apply reorder_VMap.
    exists t_abd_swapped, [("a", VMap [("c", VBool true); ("b", VNumber 1)]); ("d", VString "x")].
    split; [reflexivity|]. split; [apply perm_swap|].
    constructor; [|constructor; [split; [reflexivity|apply reorder_refl]|constructor]].
    split; [reflexivity|]. apply reorder_VMap.
    exists [("c", VBool true); ("b", VNumber 1)], [("b", VNumber 1); ("c", VBool true)].
    split; [reflexivity|]. split; [apply perm_swap|].
    repeat constructor; apply reorder_refl. }
  split; [exact Hh|]. split; [exact Hd|]. split; [exact H1|]. split; [exact H2|].
  exact (flatten_order_independent t_abd t_abd t_abd_swapped Hh Hd H1 H2).
Defined.

(** ** Sources and the store *)

Lemma store_all_some h l ws : exists h',
  store_all h (Some l) ws = Ret h' /\ maps h' l = insert_all ws (maps h l) /\
  (forall l', l' <> l -> maps h' l' = maps h l') /\ next_loc h' = next_loc h.
Proof.
  revert h. induction ws as [|[k v] ws IH]; intros h.
  - exists h. auto.
  - destruct (IH (upd h l (insert k v (maps h l)))) as (h' & E & H1 & H2 & H3).
    exists h'. simpl. rewrite E. split; [reflexivity|]. simpl in H1, H2, H3.
    rewrite Nat.eqb_refl in H1. split; [exact H1|]. split; [|exact H3].
    intros l' Hl'. rewrite H2 by exact Hl'. apply Nat.eqb_neq in Hl'. rewrite Hl'. reflexivity.
Qed.

Ltac store_step :=
  match goal with
  | |- context [store_all ?h (Some ?l) ?ws] =>
      let h' := fresh "h'" in let E := fresh "E" in
      destruct (store_all_some h l ws) as (h' & E & ? & ? & ?); rewrite E
  end.

(** A successful [Override] of a source returns the map it was given,
    updated in place with the source's entries, and touches no other map. *)
Lemma Override_ok w s h l h' r' :
  Override w s h (Some l) = Ret (h', r', None) ->
  exists ws, contribution w s = Some ws /\ r' = Some l /\
             maps h' l = insert_all ws (maps h l) /\
             (forall l', l' <> l -> maps h' l' = maps h l') /\ next_loc h' = next_loc h.
Proof.
  destruct s as [|path|buf ext|prefix v]; simpl.
  - destruct (env_writes (environ w)) as [ws|]; [|discriminate].
    store_step. intros [= <- <-]. eauto 10.
  - destruct (read_file w path) as [buf|]; [|discriminate]. unfold Override_buf.
    destruct (readBuf w buf _) as [fm|e]; [|discriminate].
    store_step. intros [= <- <-]. eauto 10.
  - unfold Override_buf. destruct (readBuf w buf ext) as [fm|e]; [|discriminate].
    store_step. intros [= <- <-]. eauto 10.
  - destruct (json_marshal w v) as [buf|]; [|discriminate].
    destruct (readBuf w buf "json") as [fm|e]; [|discriminate].
    store_step. intros [= <- <-]. eauto 10.
Qed.

(** An [Override] that returns an error has changed nothing. *)
Lemma Override_error w s h r h' r' e :
  Override w s h r = Ret (h', r', Some e) -> h' = h.
Proof.
  destruct s as [|path|buf ext|prefix v]; simpl.
  - destruct (env_writes (environ w)); [|discriminate].
    destruct (store_all h r _); discriminate.
  - destruct (read_file w path) as [buf|]; [|congruence]. unfold Override_buf.
    destruct (readBuf w buf _); [|congruence]. destruct (store_all h r _); discriminate.
  - unfold Override_buf. destruct (readBuf w buf ext); [|congruence].
    destruct (store_all h r _); discriminate.
  - destruct (json_marshal w v) as [buf|]; [|congruence].
    destruct (readBuf w buf "json"); [|congruence]. destruct (store_all h r _); discriminate.
Qed.

Lemma AddSource_ok w s h c h' c' l :
  flat c = Some l -> AddSource w s h c = Ret (h', c', None) ->
  exists ws, contribution w s = Some ws /\ flat c' = Some l /\
             maps h' l = insert_all ws (maps h l).
Proof.
  intros Hl. unfold AddSource. rewrite Hl.
  destruct (Override w s h (Some l)) as [[[h1 r1] [e|]]|] eqn:E; try discriminate.
  intros [= <- <-]. destruct (Override_ok _ _ _ _ _ _ E) as (ws & H1 & -> & H2 & _). eauto.
Qed.

(** [HasPrefix] and [TrimPrefix] *)

Lemma substring_all s : substring 0 (String.length s) s = s.
Proof. induction s as [|c s IH]; simpl; [reflexivity|]. rewrite IH. reflexivity. Qed.

Lemma HasPrefix_TrimPrefix s p : HasPrefix s p = true -> s = (p ++ TrimPrefix s p)%string.
Proof.
  unfold TrimPrefix. intros H. rewrite H. unfold HasPrefix in H. clear - H.
  revert s H. induction p as [|a p IH]; intros s H; simpl.
  - rewrite Nat.sub_0_r. symmetry. apply substring_all.
  - destruct s as [|b s]; [discriminate|]. simpl in H.
    destruct (ascii_dec a b) as [->|]; [|discriminate]. f_equal. exact (IH s H).
Qed.

(** ** The environment source with a prefix *)

Lemma V2_Override_prefix s l1 config :
  Forall (fun e => exists name v, SplitN2Eq e = [name; v]) l1 ->
  exists c', forall l2, V2.Override s (l1 ++ l2) config = V2.Override s l2 c'.
Proof.
  revert config. induction l1 as [|e l1 IH]; intros config Hok.
  - exists config. reflexivity.
  - inversion Hok as [|? ? (name & v & He) Hok']; subst.
    simpl. rewrite He.
    destruct (negb (HasPrefix (env_key name) (V2.prefix s ++ "."))).
    + exact (IH config Hok').
    + exact (IH _ Hok').
Qed.

Lemma V2_Override_skip s l1 e l2 config name v :
  SplitN2Eq e = [name; v] -> HasPrefix (env_key name) (V2.prefix s ++ ".") = false ->
  V2.Override s (l1 ++ e :: l2) config = V2.Override s (l1 ++ l2) config.
Proof.
  intros He Hp. revert config. induction l1 as [|x l1 IH]; intros config; simpl.
  - rewrite He, Hp. reflexivity.
  - destruct (SplitN2Eq x) as [|k [|v' [|]]]; try reflexivity.
    destruct (negb _); apply IH.
Qed.

Lemma V2_Override_keep s post config k x :
  Forall (fun e => exists name v, SplitN2Eq e = [name; v]) post ->
  (forall e name v, In e post -> SplitN2Eq e = [name; v] ->
     HasPrefix (env_key name) (V2.prefix s ++ ".") = true ->
     TrimPrefix (env_key name) (V2.prefix s ++ ".") <> k) ->
  lookup k config = Some x ->
  exists out, V2.Override s post config = Some out /\ lookup k out = Some x.
Proof.
  revert config. induction post as [|e post IH]; intros config Hok Hk Hl.
  - exists config. auto.
  - inversion Hok as [|? ? (name & v & He) Hok']; subst. simpl. rewrite He.
    assert (Hk' : forall e' name' v', In e' post -> SplitN2Eq e' = [name'; v'] ->
              HasPrefix (env_key name') (V2.prefix s ++ ".") = true ->
              TrimPrefix (env_key name') (V2.prefix s ++ ".") <> k)
      by (intros; eapply Hk; [right|..]; eauto).
    destruct (HasPrefix (env_key name) (V2.prefix s ++ ".")) eqn:Hp; simpl.
    + apply IH; [exact Hok'|exact Hk'|]. rewrite lookup_insert_ne; [exact Hl|].
      intros Heq. apply (Hk e name v (or_introl eq_refl) He Hp). symmetry. exact Heq.
    + apply IH; assumption.
Qed.

(** ** [decodeHook] *)

Lemma decodeHook_other src dst v :
  ~ (kind src = KString /\ type_string dst = "time.Duration") -> decodeHook src dst v = Ret (v, None).
Proof.
  intros H. unfold decodeHook.
  destruct (Kind_eqb (kind src) KString) eqn:E1; [|reflexivity].
  destruct (String.eqb (type_string dst) "time.Duration") eqn:E2; [|reflexivity].
  exfalso. apply H. apply String.eqb_eq in E2. split; [|exact E2].
  destruct (kind src); try discriminate. reflexivity.
Qed.

(** ** The store *)

(** C3 (refuted; the code is at fault): [Unmarshal] decodes the whole flat
    map whatever the prefix, because the filtered map is bound to a second
    [fm] local to the [if] block.  With the prefix ["values.v1"] the decoder
    receives the full tree [{"values": {"v1": {...}}}] rather than
    [{"b": ..., "d": ..., "i": ...}], the map the specification describes. *)
Theorem Unmarshal_prefix_ignored :
  (forall prefix h c, Unmarshal_input prefix h c = ToHierarchicalMap h c) /\
  Unmarshal_input "values.v1" (fst store_v1) (snd store_v1) = Some tree_v1 /\
  Decode_input_spec "values.v1" (fst store_v1) (snd store_v1) =
    Some [("b", VBool true); ("d", VString "1m"); ("i", VNumber (-42))].
Proof.
  split; [intros; reflexivity|]. split; vm_compute; reflexivity.
Qed.

(** C4: after two successful calls of [AddSource], the store holds its
    former map overwritten first by the entries of the first source, then
    by those of the second: a key the second source writes has its value
    from there, a key only the first source writes has the first source's
    value, and every other key keeps its value. *)
Theorem AddSource_later_wins w s1 s2 h h1 h2 c c1 c2 l :
  flat c = Some l ->
  AddSource w s1 h c = Ret (h1, c1, None) ->
  AddSource w s2 h1 c1 = Ret (h2, c2, None) ->
  exists ws1 ws2,
    contribution w s1 = Some ws1 /\ contribution w s2 = Some ws2 /\ flat c2 = flat c /\
    deref h2 (flat c2) = insert_all ws2 (insert_all ws1 (deref h (flat c))) /\
    forall k, lookup k (deref h2 (flat c2)) =
      match lookup k (rev ws2) with
      | Some v => Some v
      | None => match lookup k (rev ws1) with Some v => Some v | None => lookup k (deref h (flat c)) end
      end.
Proof.
  intros Hl H1 H2.
  destruct (AddSource_ok _ _ _ _ _ _ _ Hl H1) as (ws1 & C1 & Hl1 & M1).
  destruct (AddSource_ok _ _ _ _ _ _ _ Hl1 H2) as (ws2 & C2 & Hl2 & M2).
  exists ws1, ws2. split; [exact C1|]. split; [exact C2|].
  rewrite Hl2, Hl. simpl. rewrite M2, M1. split; [reflexivity|]. split; [reflexivity|].
  intros k. rewrite !lookup_insert_all. reflexivity.
Qed.

Lemma AddSource_later_wins_witness :
  flat (snd store0) = Some 0%nat /\
  AddSource w_demo (NewBufSource buf_ax "JSON") (fst store0) (snd store0) =
    Ret (fst store1, snd store1, None) /\
  AddSource w_demo NewEnvSource (fst store1) (snd store1) = Ret (fst store2, snd store2, None) /\
  exists ws1 ws2,
    contribution w_demo (NewBufSource buf_ax "JSON") = Some ws1 /\
    contribution w_demo NewEnvSource = Some ws2 /\ flat (snd store2) = flat (snd store0) /\
    deref (fst store2) (flat (snd store2)) =
      insert_all ws2 (insert_all ws1 (deref (fst store0) (flat (snd store0)))) /\
    forall k, lookup k (deref (fst store2) (flat (snd store2))) =
      match lookup k (rev ws2) with
      | Some v => Some v
      | None => match lookup k (rev ws1) with
                | Some v => Some v
                | None => lookup k (deref (fst store0) (flat (snd store0)))
                end
      end.
Proof.
  assert (H0 : flat (snd store0) = Some 0%nat) by reflexivity.
  assert (H1 : AddSource w_demo (NewBufSource buf_ax "JSON") (fst store0) (snd store0) =
                 Ret (fst store1, snd store1, None)) by reflexivity.
  assert (H2 : AddSource w_demo NewEnvSource (fst store1) (snd store1) =
                 Ret (fst store2, snd store2, None)) by reflexivity.
  split; [exact H0|]. split; [exact H1|]. split; [exact H2|].
  exact (AddSource_later_wins _ _ _ _ _ _ _ _ _ _ H0 H1 H2).
Defined.

(** The store of the witness above: the environment's ["a.x"] overrides
    the buffer's, the buffer's ["a.y"] survives. *)
Example store2_contents :
  deref (fst store2) (flat (snd store2)) =
    [("a.x", VString "env"); ("a.y", VNumber 1); ("home", VString "/root")].
Proof. vm_compute. reflexivity. Qed.

(** C5: when [AddSource] returns an error, the heap (so every map, the
    store's flat map included) and the store are those before the call. *)
Theorem AddSource_error_unchanged w s h c h' c' e :
  AddSource w s h c = Ret (h', c', Some e) -> h' = h /\ c' = c.
Proof.
  unfold AddSource.
  destruct (Override w s h (flat c)) as [[[h1 r1] [e1|]]|] eqn:E; try discriminate.
  intros [= <- <- _]. split; [exact (Override_error _ _ _ _ _ _ _ E)|reflexivity].
Qed.

Lemma AddSource_error_unchanged_witness :
  AddSource w_demo (NewBufSource buf_ax "toml") (fst store0) (snd store0) =
    Ret (fst store0, snd store0, Some "toml is not a valid yaml or json extension") /\
  fst store0 = fst store0 /\ snd store0 = snd store0.
Proof.
  assert (H : AddSource w_demo (NewBufSource buf_ax "toml") (fst store0) (snd store0) =
                Ret (fst store0, snd store0, Some "toml is not a valid yaml or json extension"))
    by reflexivity.
  split; [exact H|]. exact (AddSource_error_unchanged _ _ _ _ _ _ _ H).
Defined.

(** C8 (as stated): refuted; writing a key into the map [ToFlatMap]
    returns changes the store. *)
Lemma ToFlatMap_counterexample :
  deref (fst store0) (flat (snd store0)) = [] /\
  match map_store (fst store0) (ToFlatMap (snd store0)) "k" (VString "v") with
  | Ret h' => deref h' (flat (snd store0)) = [("k", VString "v")]
  | Panic => False
  end.
Proof. split; reflexivity. Qed.

(** C8 (amended): [ToFlatMap] returns the store's flat map itself, a live
    alias: writing a key into the returned map writes it into the store's
    flat map. *)
Theorem ToFlatMap_alias h c h' k v :
  map_store h (ToFlatMap c) k v = Ret h' -> deref h' (flat c) = insert k v (deref h (flat c)).
Proof.
  unfold map_store, ToFlatMap. destruct (flat c) as [l|]; [|discriminate].
  intros [= <-]. simpl. rewrite Nat.eqb_refl. reflexivity.
Qed.

Lemma ToFlatMap_alias_witness :
  map_store (fst store0) (ToFlatMap (snd store0)) "k" (VString "v") =
    Ret (upd (fst store0) 0%nat [("k", VString "v")]) /\
  deref (upd (fst store0) 0%nat [("k", VString "v")]) (flat (snd store0)) =
    insert "k" (VString "v") (deref (fst store0) (flat (snd store0))).
Proof.
  assert (H : map_store (fst store0) (ToFlatMap (snd store0)) "k" (VString "v") =
                Ret (upd (fst store0) 0%nat [("k", VString "v")])) by reflexivity.
  split; [exact H|]. exact (ToFlatMap_alias _ _ _ _ _ H).
Defined.

(** ** The environment source *)

(** C6 (as stated): refuted; a later variable of the environment with the
    same transformed name overwrites ["s.value"]. *)
Lemma env_source_prefix_counterexample :
  V2.Override (V2.NewEnvSource "my") ["MY_S_VALUE=hello"; "my_s_value=bye"] [] =
    Some [("s.value", VString "bye")].
Proof. reflexivity. Qed.

(** C6 (amended): in an environment of [NAME=value] entries in which
    [MY_S_VALUE=hello] is followed by no variable whose transformed name is
    ["my.s.value"], the environment source with prefix ["my"] returns a map
    in which ["s.value"] holds ["hello"]; a variable whose transformed name
    does not begin with ["my."] changes nothing: the result is the one
    computed without it. *)
Theorem env_source_prefix (pre post : list string) (config : gomap value) :
  Forall (fun e => exists name v, SplitN2Eq e = [name; v]) (pre ++ post) ->
  (forall e name v, In e post -> SplitN2Eq e = [name; v] -> env_key name <> "my.s.value") ->
  (exists out, V2.Override (V2.NewEnvSource "my") (pre ++ "MY_S_VALUE=hello" :: post) config = Some out /\
               lookup "s.value" out = Some (VString "hello")) /\
  (forall l1 l2 e name v, SplitN2Eq e = [name; v] -> HasPrefix (env_key name) "my." = false ->
     V2.Override (V2.NewEnvSource "my") (l1 ++ e :: l2) config =
     V2.Override (V2.NewEnvSource "my") (l1 ++ l2) config).
Proof.
  intros Hok Hpost. apply Forall_app in Hok as [Hpre Hok].
  split.
  - destruct (V2_Override_prefix (V2.NewEnvSource "my") pre config Hpre) as [c' Hc'].
    rewrite Hc'.
    change (V2.Override (V2.NewEnvSource "my") ("MY_S_VALUE=hello" :: post) c')
      with (V2.Override (V2.NewEnvSource "my") post (insert "s.value" (VString "hello") c')).
    apply V2_Override_keep; [exact Hok| |rewrite lookup_insert; reflexivity].
    intros e name v Hin He Hp Ht. apply (Hpost e name v Hin He).
    rewrite (HasPrefix_TrimPrefix _ _ Hp), Ht. reflexivity.
  - intros l1 l2 e name v He Hp. exact (V2_Override_skip (V2.NewEnvSource "my") l1 e l2 config name v He Hp).
Qed.

Lemma env_source_prefix_witness :
  Forall (fun e => exists name v, SplitN2Eq e = [name; v]) (["HOME=/root"] ++ ["MY_OTHER=x"]) /\
  (forall e name v, In e ["MY_OTHER=x"] -> SplitN2Eq e = [name; v] -> env_key name <> "my.s.value") /\
  (exists out, V2.Override (V2.NewEnvSource "my") (["HOME=/root"] ++ "MY_S_VALUE=hello" :: ["MY_OTHER=x"]) [] = Some out /\
               lookup "s.value" out = Some (VString "hello")) /\
  (forall l1 l2 e name v, SplitN2Eq e = [name; v] -> HasPrefix (env_key name) "my." = false ->
     V2.Override (V2.NewEnvSource "my") (l1 ++ e :: l2) [] =
     V2.Override (V2.NewEnvSource "my") (l1 ++ l2) []).
Proof.
  assert (H1 : Forall (fun e => exists name v, SplitN2Eq e = [name; v]) (["HOME=/root"] ++ ["MY_OTHER=x"])).
  { repeat constructor; do 2 eexists; reflexivity. }
  assert (H2 : forall e name v, In e ["MY_OTHER=x"] -> SplitN2Eq e = [name; v] -> env_key name <> "my.s.value").
  { intros e name v [<-|[]] He. vm_compute in He. injection He as <- <-. vm_compute. discriminate. }
  split; [exact H1|]. split; [exact H2|]. exact (env_source_prefix _ _ [] H1 H2).
Defined.

(** ** [decodeHook] *)

(** C7: when the source type is a string kind and the destination type is
    [time.Duration], the hook parses the (plain Go) string with
    [time.ParseDuration]: a well-formed duration gives its value in
    nanoseconds, a malformed one an error; for any other pair of types the
    hook hands the value back unchanged with no error. *)
Theorem decodeHook_duration (src dst : rtype) (s : string) :
  kind src = KString -> type_string dst = "time.Duration" ->
  (forall d, ParseDuration s = Some d ->
     decodeHook src dst (mkIface string_t (VString s)) = Ret (mkIface duration_t (VNumber d), None)) /\
  (ParseDuration s = None ->
     exists e, decodeHook src dst (mkIface string_t (VString s)) = Ret (mkIface duration_t (VNumber 0), Some e)) /\
  (forall src' dst' v, ~ (kind src' = KString /\ type_string dst' = "time.Duration") ->
     decodeHook src' dst' v = Ret (v, None)).
Proof.
  intros Hk Ht. unfold decodeHook at 1 2. rewrite Hk, Ht. simpl.
  split; [|split].
  - intros d Hd. rewrite Hd. reflexivity.
  - intros Hd. rewrite Hd. eexists. reflexivity.
  - exact decodeHook_other.
Qed.

Lemma decodeHook_duration_witness :
  ParseDuration "1m" = Some 60000000000 /\
  decodeHook string_t duration_t (mkIface string_t (VString "1m")) =
    Ret (mkIface duration_t (VNumber 60000000000), None) /\
  (exists e, decodeHook string_t duration_t (mkIface string_t (VString "1x")) =
               Ret (mkIface duration_t (VNumber 0), Some e)) /\
  decodeHook string_t string_t (mkIface string_t (VString "1m")) = Ret (mkIface string_t (VString "1m"), None).
Proof.
  assert (Hd : ParseDuration "1m" = Some 60000000000) by (vm_compute; reflexivity).
  assert (Hx : ParseDuration "1x" = None) by (vm_compute; reflexivity).
  split; [exact Hd|]. split; [|split].
  - exact (proj1 (decodeHook_duration string_t duration_t "1m" eq_refl eq_refl) _ Hd).
  - exact (proj1 (proj2 (decodeHook_duration string_t duration_t "1x" eq_refl eq_refl)) Hx).
  - apply (proj2 (proj2 (decodeHook_duration string_t duration_t "1m" eq_refl eq_refl))).
    intros [_ H]. discriminate H.
Defined.

(* ================================================================= *)
(** * Further properties of the code *)

(** ** More on Go maps *)

Lemma NoDup_functional (l : list (string * value)) : NoDup (map fst l) -> functional l.
Proof.
  induction l as [|[k v] l IH]; simpl; intros Hnd k' x1 x2 H1 H2; [contradiction|].
  inversion Hnd as [|? ? Hk Hnd']; subst.
  destruct H1 as [H1|H1], H2 as [H2|H2].
  - congruence.
  - inversion H1; subst. exfalso. apply Hk. apply in_map_iff. exists (k', x2). auto.
  - inversion H2; subst. exfalso. apply Hk. apply in_map_iff. exists (k', x1). auto.
  - exact (IH Hnd' _ _ _ H1 H2).
Qed.

Lemma lookup_perm (l m : list (string * value)) k :
  NoDup (map fst m) -> Permutation l m -> lookup k l = lookup k m.
Proof.
  intros Hnd Hp.
  assert (Hnd' : NoDup (map fst l)) by exact (NoDup_perm_keys _ _ (Permutation_sym Hp) Hnd).
  apply option_ext. intros x.
  rewrite (functional_lookup _ _ _ (NoDup_functional _ Hnd')),
          (functional_lookup _ _ _ (NoDup_functional _ Hnd)).
  split; apply Permutation_in; [exact Hp|exact (Permutation_sym Hp)].
Qed.

(** Writing the entries of any listing of a Go map into an empty map
    rebuilds it. *)
Lemma insert_all_perm (l m : gomap value) :
  canonical m -> Permutation l m -> insert_all l [] = m.
Proof.
  intros Hc Hp. apply canonical_ext; [apply canonical_insert_all; constructor|exact Hc|].
  intros k. rewrite lookup_insert_all.
  rewrite (lookup_perm (rev l) m k (canonical_NoDup _ Hc)).
  - destruct (lookup k m); reflexivity.
  - apply (Permutation_trans (Permutation_sym (Permutation_rev l))). exact Hp.
Qed.

Lemma In_insert_all {A} (l m : list (string * A)) kv :
  In kv (insert_all l m) -> In kv l \/ In kv m.
Proof.
  revert m. induction l as [|[k v] l IH]; intros m Hin; simpl in *; [auto|].
  destruct (IH _ Hin) as [H|H]; [auto|].
  apply In_insert in H as [H|H]; auto.
Qed.

Lemma lookup_None_In {A} k (l : list (string * A)) :
  lookup k l = None <-> forall x, ~ In (k, x) l.
Proof.
  split.
  - intros H x Hin. destruct (In_lookup_some _ _ _ Hin) as [x' [E _]]. congruence.
  - intros H. destruct (lookup k l) as [x|] eqn:E; [|reflexivity].
    exfalso. exact (H x (lookup_In _ _ _ E)).
Qed.


(** ** [unflatten] and [flatten] on one-level maps *)

Lemma unflatten_loop_flat order acc :
  Forall (fun kv => has_dot (fst kv) = false) order ->
  unflatten_loop order acc = Some (insert_all order acc).
Proof.
  revert acc. induction order as [|[k v] order IH]; intros acc Hd; [reflexivity|].
  inversion Hd as [|? ? Hk Hd']; subst. simpl in Hk |- *.
  rewrite (dotSlicer_nodot _ Hk). simpl. exact (IH _ Hd').
Qed.

Lemma flatten_value_flat (m : list (string * value)) keys :
  (forall k x, In (k, x) m -> is_map x = false) ->
  flatten_value (VMap m) keys = map (fun kv => ((keys ++ [fst kv])%list, snd kv)) m.
Proof.
  induction m as [|[k x] m IH]; intros Hl; [reflexivity|].
  rewrite flatten_value_cons, flatten_value_leaf by (apply (Hl k); left; reflexivity).
  simpl. f_equal. apply IH. intros k' x' Hin. apply (Hl k'). right. exact Hin.
Qed.

Lemma Forall2_leaf_eq (m m'' : list (string * value)) :
  (forall k x, In (k, x) m -> is_map x = false) ->
  Forall2 (fun a b => fst a = fst b /\ reorder (snd a) (snd b)) m m'' -> m'' = m.
Proof.
  intros Hl H. induction H as [|[k x] [k' y] m m'' [Hk Hr] H IH]; [reflexivity|].
  simpl in Hk, Hr. subst k'.
  rewrite (reorder_leaf _ _ (Hl k x (or_introl eq_refl)) Hr).
  f_equal. apply IH. intros k0 x0 Hin. apply (Hl k0). right. exact Hin.
Qed.

(** ** Paths and keys of [flatten] *)

Lemma flatten_In t k x :
  In (k, x) (flatten t) -> exists p, dotJoiner p = k /\ path_in p t x /\ is_map x = false.
Proof.
  unfold flatten. intros Hin. apply In_insert_all in Hin as [Hin|[]].
  apply in_map_iff in Hin as [[p x'] [Hpx Hin]]. inversion Hpx; subst.
  exists p. split; [reflexivity|]. apply flattenrec_In. exact Hin.
Qed.

(** ** Extras: [unflatten] and [flatten] *)

(** [unflatten] leaves a map whose keys contain no dot as it is, whatever
    order its loop visits the keys in. *)
Theorem unflatten_flat_keys (m order : gomap value) :
  canonical m -> Forall (fun kv => has_dot (fst kv) = false) m -> Permutation order m ->
  unflatten_in order = Some m.
Proof.
  intros Hc Hd Hp. unfold unflatten_in. rewrite unflatten_loop_flat.
  - f_equal. exact (insert_all_perm _ _ Hc Hp).
  - apply Forall_forall. intros kv Hin. rewrite Forall_forall in Hd.
    apply Hd. exact (Permutation_in _ Hp Hin).
Qed.

Lemma unflatten_flat_keys_witness :
  unflatten_in [("b", VBool true); ("a", VNumber 1)] = Some [("a", VNumber 1); ("b", VBool true)].
Proof.
  apply (unflatten_flat_keys [("a", VNumber 1); ("b", VBool true)]).
  - unfold canonical. repeat constructor.
  - repeat constructor.
  - apply perm_swap.
Defined.

(** [flatten] leaves a map whose values are all leaves (no nested map) as
    it is, whatever order its traversal takes, even when keys contain dots. *)
Theorem flatten_flat_map (m m' : gomap value) :
  canonical m -> leaf_values m = true -> reorder (VMap m) (VMap m') -> flatten m' = m.
Proof.
  intros Hc Hl Hr. rewrite leaf_values_spec in Hl.
  apply reorder_VMap in Hr as (m1 & m'' & [= <-] & Hp & Hf).
  rewrite (Forall2_leaf_eq _ _ Hl Hf) in Hp.
  assert (Hl' : forall k x, In (k, x) m' -> is_map x = false).
  { intros k x Hin. apply (Hl k). exact (Permutation_in _ (Permutation_sym Hp) Hin). }
  unfold flatten, flattenrec. rewrite (flatten_value_flat _ _ Hl'), map_map.
  rewrite (map_ext _ (fun kv => kv)) by (intros [k x]; reflexivity).
  rewrite map_id. exact (insert_all_perm _ _ Hc (Permutation_sym Hp)).
Qed.

Lemma flatten_flat_map_witness : leaf_values fm_ab = true /\ flatten fm_ab = fm_ab.
Proof.
  assert (Hl : leaf_values fm_ab = true) by reflexivity.
  split; [exact Hl|].
  apply (flatten_flat_map fm_ab fm_ab); [unfold canonical, fm_ab; repeat constructor | exact Hl | apply reorder_refl].
Defined.

(** Every entry of [flatten t] is a leaf of [t] (never a map, so an empty
    map leaves no key) under the joined path that leads to it, and every
    leaf of [t] gives a key. *)
Theorem flatten_leaves (t : gomap value) :
  (forall k x, lookup k (flatten t) = Some x ->
     is_map x = false /\ exists p, dotJoiner p = k /\ path_in p t x) /\
  (forall p x, path_in p t x -> is_map x = false -> exists y, lookup (dotJoiner p) (flatten t) = Some y).
Proof.
  split.
  - intros k x Hk. apply lookup_In, flatten_In in Hk as [p [Hk [Hp Hx]]]. eauto.
  - intros p x Hp Hx. unfold flatten. rewrite lookup_insert_all.
    assert (Hin : In (dotJoiner p, x) (rev (map (fun kv => (dotJoiner (fst kv), snd kv)) (flattenrec t []))))
      by (apply in_rev; rewrite rev_involutive; apply in_map_iff; exists (p, x);
          split; [reflexivity|apply flattenrec_In; auto]).
    destruct (In_lookup_some _ _ _ Hin) as [y [E _]]. rewrite E. eauto.
Qed.

Lemma flatten_leaves_witness :
  path_in ["a"; "x"] tree_ax (VString "buf") /\ is_map (VString "buf") = false /\
  exists y, lookup (dotJoiner ["a"; "x"]) (flatten tree_ax) = Some y.
Proof.
  assert (Hp : path_in ["a"; "x"] tree_ax (VString "buf"))
    by (exists [("x", VString "buf"); ("y", VNumber 1)]; split; simpl; auto).
  assert (Hx : is_map (VString "buf") = false) by reflexivity.
  split; [exact Hp|]. split; [exact Hx|].
  exact (proj2 (flatten_leaves tree_ax) _ _ Hp Hx).
Defined.

(** ** Strings: prefixes, extensions, [SplitN] *)

Lemma prefix_app p s : String.prefix p (p ++ s) = true.
Proof.
  induction p as [|c p IH]; simpl; [destruct s; reflexivity|].
  destruct (ascii_dec c c) as [_|n]; [exact IH|contradiction].
Qed.

Lemma substring_app p s : substring (String.length p) (String.length s) (p ++ s) = s.
Proof. induction p as [|c p IH]; simpl; [apply substring_all|exact IH]. Qed.

Lemma str_length_app a b : String.length (a ++ b) = (String.length a + String.length b)%nat.
Proof. induction a as [|c a IH]; simpl; [reflexivity|]. rewrite IH. reflexivity. Qed.

Lemma str_app_nil_r a : (a ++ "")%string = a.
Proof. induction a as [|c a IH]; simpl; [reflexivity|]. rewrite IH. reflexivity. Qed.

Lemma TrimPrefix_app p s : TrimPrefix (p ++ s) p = s.
Proof.
  unfold TrimPrefix, HasPrefix. rewrite prefix_app, str_length_app.
  replace (String.length p + String.length s - String.length p)%nat with (String.length s) by lia.
  apply substring_app.
Qed.

Lemma append_inj_l s a b : (s ++ a)%string = (s ++ b)%string -> a = b.
Proof. induction s as [|c s IH]; simpl; [auto|]. intros [= H]. exact (IH H). Qed.

Lemma prefixed_key_inj p a b : prefixed_key p a = prefixed_key p b -> a = b.
Proof.
  unfold prefixed_key. destruct (String.eqb p ""); [auto|].
  intros H. apply append_inj_l in H. apply (append_inj_l ".") in H. exact H.
Qed.

Lemma list_ascii_of_string_app a b :
  list_ascii_of_string (a ++ b) = (list_ascii_of_string a ++ list_ascii_of_string b)%list.
Proof. induction a as [|c a IH]; simpl; [reflexivity|]. rewrite IH. reflexivity. Qed.

(** [filepath.Ext] walks back over the characters of a last element with
    no dot and no slash. *)
Lemma ext_rev_plain e : forall r acc,
  has_dot e = false -> has_char "/"%char e = false ->
  ext_rev (rev (list_ascii_of_string e) ++ r) acc = ext_rev r (e ++ acc).
Proof.
  induction e as [|c e IH]; intros r acc Hd Hs; [reflexivity|].
  simpl in Hd, Hs. apply orb_false_iff in Hd as [Hd1 Hd2]. apply orb_false_iff in Hs as [Hs1 Hs2].
  simpl. rewrite <- app_assoc. simpl. rewrite (IH _ _ Hd2 Hs2). simpl.
  rewrite Hs1. replace (Ascii.eqb c dot) with false by (rewrite Ascii.eqb_sym; symmetry; exact Hd1).
  reflexivity.
Qed.

Lemma Ext_dot dir e :
  has_dot e = false -> has_char "/"%char e = false -> Ext (dir ++ "." ++ e) = ("." ++ e)%string.
Proof.
  intros Hd Hs. unfold Ext. rewrite !list_ascii_of_string_app. simpl.
  rewrite rev_app_distr. simpl. rewrite <- app_assoc. simpl.
  rewrite (ext_rev_plain _ _ _ Hd Hs). simpl. rewrite str_app_nil_r. reflexivity.
Qed.

Lemma Ext_none dir base :
  (dir = "" \/ exists d, dir = (d ++ "/")%string) ->
  has_dot base = false -> has_char "/"%char base = false -> Ext (dir ++ base) = "".
Proof.
  intros Hdir Hd Hs. unfold Ext. rewrite list_ascii_of_string_app, rev_app_distr.
  rewrite (ext_rev_plain _ _ _ Hd Hs).
  destruct Hdir as [->|[d ->]]; [reflexivity|].
  rewrite list_ascii_of_string_app, rev_app_distr. reflexivity.
Qed.


Lemma SplitN2Eq_no_eq e : has_char "="%char e = false -> SplitN2Eq e = [e].
Proof.
  induction e as [|c e IH]; intros H; [reflexivity|].
  simpl in H. apply orb_false_iff in H as [H1 H2]. simpl. rewrite H1, (IH H2). reflexivity.
Qed.

Lemma SplitN2Eq_has_eq e : has_char "="%char e = true -> exists name v, SplitN2Eq e = [name; v].
Proof.
  induction e as [|c e IH]; intros H; [discriminate|].
  simpl in H. simpl. destruct (Ascii.eqb c "="%char); [eauto|].
  destruct (IH H) as (name & v & ->). eauto.
Qed.

(** ** The environment source: the entries it writes *)


Lemma env_writes_None l : env_writes l = None <-> Exists (fun e => has_char "="%char e = false) l.
Proof.
  induction l as [|e l IH]; simpl.
  - split; [discriminate|intros H; inversion H].
  - destruct (has_char "="%char e) eqn:He.
    + destruct (SplitN2Eq_has_eq _ He) as (name & v & ->). rewrite Exists_cons.
      destruct (env_writes l); split.
      * discriminate.
      * intros [H|H]; [congruence|]. apply IH in H. discriminate.
      * intros _. right. apply IH. reflexivity.
      * reflexivity.
    + rewrite (SplitN2Eq_no_eq _ He). split; [intros _; left; exact He|reflexivity].
Qed.


(** ** [readBuf] *)




Lemma readBuf_ok w buf ext fm :
  readBuf w buf ext = inl fm -> canonical fm /\ forall k x, In (k, x) fm -> is_map x = false.
Proof.
  unfold readBuf. destruct (_ || _); [|discriminate].
  destruct (yaml_unmarshal w buf) as [m|]; [|discriminate]. intros [= <-].
  split; [apply canonical_flatten|]. intros k x Hin. apply flatten_In in Hin as (_ & _ & _ & Hx). exact Hx.
Qed.


Lemma lookup_map_key (g : string -> string) (l : list (string * value)) k :
  (forall a b, g a = g b -> a = b) ->
  lookup (g k) (map (fun kv => (g (fst kv), snd kv)) l) = lookup k l.
Proof.
  intros Hg. induction l as [|[k0 v0] l IH]; simpl; [reflexivity|].
  destruct (String.eqb k k0) eqn:E.
  - apply String.eqb_eq in E. subst. rewrite String.eqb_refl. reflexivity.
  - destruct (String.eqb (g k) (g k0)) eqn:E'; [|exact IH].
    apply String.eqb_eq, Hg in E'. subst. rewrite String.eqb_refl in E. discriminate.
Qed.

(** ** Extras: the sources *)



(** A file source reads the file and then acts as a buffer source whose
    extension is the file's, without its dot. *)
Theorem fileSource_extension w path buf dir e h c :
  read_file w path = Some buf -> path = (dir ++ "." ++ e)%string ->
  has_dot e = false -> has_char "/"%char e = false ->
  AddSource w (NewFileSource path) h c = AddSource w (NewBufSource buf e) h c.
Proof.
  intros Hr -> Hd Hs. unfold AddSource, NewFileSource, NewBufSource, Override.
  rewrite Hr, (Ext_dot _ _ Hd Hs), TrimPrefix_app. reflexivity.
Qed.

Lemma fileSource_extension_witness :
  read_file w_struct "etc/app.YAML" = Some buf_ax /\ "etc/app.YAML" = ("etc/app" ++ "." ++ "YAML")%string /\
  has_dot "YAML" = false /\ has_char "/"%char "YAML" = false /\
  AddSource w_struct (NewFileSource "etc/app.YAML") (fst store0) (snd store0) =
    AddSource w_struct (NewBufSource buf_ax "YAML") (fst store0) (snd store0).
Proof.
  assert (H1 : read_file w_struct "etc/app.YAML" = Some buf_ax) by reflexivity.
  assert (H2 : "etc/app.YAML" = ("etc/app" ++ "." ++ "YAML")%string) by reflexivity.
  assert (H3 : has_dot "YAML" = false) by reflexivity.
  assert (H4 : has_char "/"%char "YAML" = false) by reflexivity.
  repeat (split; [assumption|]).
  exact (fileSource_extension _ _ _ _ _ _ _ H1 H2 H3 H4).
Defined.

(** A file whose name has no extension is refused, whatever it holds, and
    the store is left as it was. *)
Theorem fileSource_no_extension w path buf dir base h c :
  read_file w path = Some buf -> path = (dir ++ base)%string ->
  (dir = "" \/ exists d, dir = (d ++ "/")%string) ->
  has_dot base = false -> has_char "/"%char base = false ->
  AddSource w (NewFileSource path) h c = Ret (h, c, Some " is not a valid yaml or json extension").
Proof.
  intros Hr -> Hdir Hd Hs. unfold AddSource, NewFileSource, Override.
  rewrite Hr, (Ext_none _ _ Hdir Hd Hs). reflexivity.
Qed.

Lemma fileSource_no_extension_witness :
  read_file w_struct "etc.d/config" = Some buf_ax /\ "etc.d/config" = ("etc.d/" ++ "config")%string /\
  ("etc.d/" = "" \/ exists d, "etc.d/" = (d ++ "/")%string) /\
  has_dot "config" = false /\ has_char "/"%char "config" = false /\
  AddSource w_struct (NewFileSource "etc.d/config") (fst store0) (snd store0) =
    Ret (fst store0, snd store0, Some " is not a valid yaml or json extension").
Proof.
  assert (H1 : read_file w_struct "etc.d/config" = Some buf_ax) by reflexivity.
  assert (H2 : "etc.d/config" = ("etc.d/" ++ "config")%string) by reflexivity.
  assert (H3 : "etc.d/" = "" \/ exists d, "etc.d/" = (d ++ "/")%string) by (right; exists "etc.d"; reflexivity).
  assert (H4 : has_dot "config" = false) by reflexivity.
  assert (H5 : has_char "/"%char "config" = false) by reflexivity.
  repeat (split; [assumption|]).
  exact (fileSource_no_extension _ _ _ _ _ _ _ H1 H2 H3 H4 H5).
Defined.

(** A struct source with an empty prefix has exactly the effect of a JSON
    buffer source holding the value's JSON encoding. *)
Theorem structSource_no_prefix w v buf h c :
  json_marshal w v = Some buf ->
  AddSource w (NewStructSource "" v) h c = AddSource w (NewBufSource buf "json") h c.
Proof.
  intros Hj. unfold AddSource, NewStructSource, NewBufSource, Override. rewrite Hj.
  change (ToLower "json") with "json". unfold Override_buf.
  destruct (readBuf w buf "json") as [fm|e] eqn:E; [|reflexivity].
  destruct (readBuf_ok _ _ _ _ E) as [Hc _].
  rewrite (insert_all_perm _ _ Hc (Permutation_refl _)).
  rewrite (map_ext _ (fun kv => kv)) by (intros [k x]; reflexivity). rewrite map_id. reflexivity.
Qed.

Lemma structSource_no_prefix_witness :
  json_marshal w_struct VNil = Some buf_ax /\
  AddSource w_struct (NewStructSource "" VNil) (fst store0) (snd store0) =
    AddSource w_struct (NewBufSource buf_ax "json") (fst store0) (snd store0).
Proof.
  assert (H : json_marshal w_struct VNil = Some buf_ax) by reflexivity.
  split; [exact H|]. exact (structSource_no_prefix _ _ _ _ _ H).
Defined.

(** A struct source with prefix [p] writes each key [k] of the flattened
    JSON encoding of its value as [p.k] ([k] itself when [p] is empty),
    with its value, and leaves every other key of the store as it was. *)
Theorem structSource_prefix w p v buf m h c l h' c' :
  flat c = Some l -> json_marshal w v = Some buf -> yaml_unmarshal w buf = Some m ->
  AddSource w (NewStructSource p v) h c = Ret (h', c', None) ->
  (forall k x, lookup k (flatten m) = Some x -> lookup (prefixed_key p k) (deref h' (flat c')) = Some x) /\
  (forall k', (forall k, lookup k (flatten m) <> None -> prefixed_key p k <> k') ->
     lookup k' (deref h' (flat c')) = lookup k' (deref h (flat c))).
Proof.
  intros Hl Hj Hm Ha.
  destruct (AddSource_ok _ _ _ _ _ _ _ Hl Ha) as (ws & Hws & Hl' & Hmaps).
  simpl in Hws. rewrite Hj in Hws. unfold readBuf in Hws. simpl in Hws. rewrite Hm in Hws.
  injection Hws as <-.
  rewrite (insert_all_perm _ _ (canonical_flatten m) (Permutation_refl _)) in Hmaps.
  rewrite Hl', Hl. simpl. rewrite Hmaps.
  set (fm := flatten m) in *.
  assert (Hnd : NoDup (map fst fm)) by exact (canonical_NoDup _ (canonical_flatten m)).
  split.
  - intros k x Hk. rewrite lookup_insert_all, <- map_rev.
    rewrite (lookup_map_key (prefixed_key p) _ _ (prefixed_key_inj p)).
    rewrite (lookup_perm (rev fm) fm k Hnd (Permutation_sym (Permutation_rev fm))), Hk. reflexivity.
  - intros k' Hk'. rewrite lookup_insert_all.
    replace (lookup k' (rev (map (fun kv => (prefixed_key p (fst kv), snd kv)) fm))) with (@None value);
      [reflexivity|].
    symmetry. apply lookup_None_In. intros y Hin.
    apply in_rev, in_map_iff in Hin as [[k0 y0] [Hkv Hin]]. inversion Hkv; subst.
    destruct (In_lookup_some _ _ _ Hin) as [y' [E _]]. apply (Hk' k0); [congruence|reflexivity].
Qed.

Lemma structSource_prefix_witness :
  flat (snd store0) = Some 0%nat /\ json_marshal w_struct VNil = Some buf_ax /\
  yaml_unmarshal w_struct buf_ax = Some tree_ax /\
  AddSource w_struct (NewStructSource "p" VNil) (fst store0) (snd store0) =
    Ret (fst (result_of (AddSource w_struct (NewStructSource "p" VNil) (fst store0) (snd store0))),
         snd (result_of (AddSource w_struct (NewStructSource "p" VNil) (fst store0) (snd store0))), None) /\
  lookup "p.a.x" (deref (fst (result_of (AddSource w_struct (NewStructSource "p" VNil) (fst store0) (snd store0))))
                        (flat (snd (result_of (AddSource w_struct (NewStructSource "p" VNil) (fst store0) (snd store0))))))
    = Some (VString "buf").
Proof.
  assert (H1 : flat (snd store0) = Some 0%nat) by reflexivity.
  assert (H2 : json_marshal w_struct VNil = Some buf_ax) by reflexivity.
  assert (H3 : yaml_unmarshal w_struct buf_ax = Some tree_ax) by reflexivity.
  assert (H4 : AddSource w_struct (NewStructSource "p" VNil) (fst store0) (snd store0) =
    Ret (fst (result_of (AddSource w_struct (NewStructSource "p" VNil) (fst store0) (snd store0))),
         snd (result_of (AddSource w_struct (NewStructSource "p" VNil) (fst store0) (snd store0))), None))
    by reflexivity.
  split; [exact H1|]. split; [exact H2|]. split; [exact H3|]. split; [exact H4|].
  apply (proj1 (structSource_prefix _ _ _ _ _ _ _ _ _ _ H1 H2 H3 H4) "a.x"). reflexivity.
Defined.



(** The environment source never returns an error: it succeeds, or it
    panics, exactly when some entry of the environment has no [=]. *)
Theorem envSource_outcome w h c l :
  flat c = Some l ->
  (AddSource w NewEnvSource h c = Panic <-> Exists (fun e => has_char "="%char e = false) (environ w)) /\
  (forall h' c' e, AddSource w NewEnvSource h c <> Ret (h', c', Some e)).
Proof.
  intros Hl. unfold AddSource, NewEnvSource, Override. rewrite Hl.
  destruct (env_writes (environ w)) eqn:E.
  - store_step. split; [|discriminate]. split; [discriminate|].
    intros Hx. apply env_writes_None in Hx. congruence.
  - split; [|discriminate]. split; [intros _|reflexivity]. apply env_writes_None. exact E.
Qed.

Lemma envSource_outcome_witness :
  flat (snd store0) = Some 0%nat /\
  (AddSource (mkWorld ["HOME=/root"; "BROKEN"] (fun _ => None) (fun _ => None) (fun _ => None))
     NewEnvSource (fst store0) (snd store0) = Panic <->
   Exists (fun e => has_char "="%char e = false) ["HOME=/root"; "BROKEN"]) /\
  (forall h' c' e, AddSource (mkWorld ["HOME=/root"; "BROKEN"] (fun _ => None) (fun _ => None) (fun _ => None))
     NewEnvSource (fst store0) (snd store0) <> Ret (h', c', Some e)).
Proof.
  assert (H : flat (snd store0) = Some 0%nat) by reflexivity.
  split; [exact H|].
  exact (envSource_outcome (mkWorld ["HOME=/root"; "BROKEN"] (fun _ => None) (fun _ => None) (fun _ => None))
           _ _ _ H).
Defined.

(** ** The store: what its maps hold *)

Lemma contribution_leaves w s ws :
  contribution w s = Some ws -> forall k x, In (k, x) ws -> is_map x = false.
Proof.
  destruct s as [|path|buf ext|prefix v]; simpl.
  - revert ws. induction (environ w) as [|e l IH]; intros ws; simpl.
    + intros [= <-] k x [].
    + destruct (SplitN2Eq e) as [|key [|val [|]]]; try discriminate.
      destruct (env_writes l) as [ws'|]; [|discriminate]. intros [= <-] k x [H|H].
      * inversion H; reflexivity.
      * exact (IH ws' eq_refl k x H).
  - destruct (read_file w path) as [buf|]; [|discriminate].
    destruct (readBuf w buf _) as [fm|] eqn:E; [|discriminate]. intros [= <-].
    exact (proj2 (readBuf_ok _ _ _ _ E)).
  - destruct (readBuf w buf ext) as [fm|] eqn:E; [|discriminate]. intros [= <-].
    exact (proj2 (readBuf_ok _ _ _ _ E)).
  - destruct (json_marshal w v) as [buf|]; [|discriminate].
    destruct (readBuf w buf "json") as [fm|] eqn:E; [|discriminate]. intros [= <-] k x Hin.
    apply in_map_iff in Hin as [[k0 x0] [Hkv Hin]]. inversion Hkv; subst.
    apply In_insert_all in Hin as [Hin|[]]. exact (proj2 (readBuf_ok _ _ _ _ E) _ _ Hin).
Qed.

(** ** Extras: the store *)

(** [AddSource] keeps the store on the same map, whether it succeeds or
    returns an error, and writes into no other map. *)
Theorem AddSource_same_map w s h c l h' c' oe :
  flat c = Some l -> AddSource w s h c = Ret (h', c', oe) ->
  flat c' = Some l /\ forall l', l' <> l -> maps h' l' = maps h l'.
Proof.
  intros Hl. unfold AddSource. rewrite Hl.
  destruct (Override w s h (Some l)) as [[[h1 r1] [e|]]|] eqn:E; try discriminate.
  - intros [= <- <- _]. rewrite (Override_error _ _ _ _ _ _ _ E). auto.
  - intros [= <- <- <-]. destruct (Override_ok _ _ _ _ _ _ E) as (ws & _ & -> & _ & H & _). auto.
Qed.

Lemma AddSource_same_map_witness :
  flat (snd store1) = Some 0%nat /\
  AddSource w_demo NewEnvSource (fst store1) (snd store1) = Ret (fst store2, snd store2, None) /\
  flat (snd store2) = Some 0%nat /\ forall l', l' <> 0%nat -> maps (fst store2) l' = maps (fst store1) l'.
Proof.
  assert (H1 : flat (snd store1) = Some 0%nat) by reflexivity.
  assert (H2 : AddSource w_demo NewEnvSource (fst store1) (snd store1) = Ret (fst store2, snd store2, None))
    by reflexivity.
  split; [exact H1|]. split; [exact H2|]. exact (AddSource_same_map _ _ _ _ _ _ _ _ H1 H2).
Defined.

(** No source ever puts a nested map into the store: if the store's map
    holds only leaf values, it still does after any call of [AddSource]. *)
Theorem AddSource_leaf_values w s h c l h' c' oe :
  flat c = Some l -> leaf_values (maps h l) = true -> AddSource w s h c = Ret (h', c', oe) ->
  leaf_values (deref h' (flat c')) = true.
Proof.
  intros Hl Hv Ha. destruct oe as [e|].
  - unfold AddSource in Ha. rewrite Hl in Ha.
    destruct (Override w s h (Some l)) as [[[h1 r1] [e'|]]|] eqn:E; try discriminate.
    injection Ha as <- <- _. rewrite (Override_error _ _ _ _ _ _ _ E), Hl. exact Hv.
  - destruct (AddSource_ok _ _ _ _ _ _ _ Hl Ha) as (ws & Hws & -> & Hm). simpl. rewrite Hm.
    rewrite leaf_values_spec in Hv |- *. intros k x Hin.
    apply In_insert_all in Hin as [Hin|Hin]; [exact (contribution_leaves _ _ _ Hws _ _ Hin)|exact (Hv _ _ Hin)].
Qed.

Lemma AddSource_leaf_values_witness :
  flat (snd store1) = Some 0%nat /\ leaf_values (maps (fst store1) 0%nat) = true /\
  AddSource w_demo NewEnvSource (fst store1) (snd store1) = Ret (fst store2, snd store2, None) /\
  leaf_values (deref (fst store2) (flat (snd store2))) = true.
Proof.
  assert (H1 : flat (snd store1) = Some 0%nat) by reflexivity.
  assert (H2 : leaf_values (maps (fst store1) 0%nat) = true) by (vm_compute; reflexivity).
  assert (H3 : AddSource w_demo NewEnvSource (fst store1) (snd store1) = Ret (fst store2, snd store2, None))
    by reflexivity.
  split; [exact H1|]. split; [exact H2|]. split; [exact H3|].
  exact (AddSource_leaf_values _ _ _ _ _ _ _ _ H1 H2 H3).
Defined.



(** ** Upper case *)

Lemma is_upper_lower c : is_upper (lower_ascii c) = false.
Proof.
  unfold lower_ascii. cbv zeta.
  destruct ((65 <=? nat_of_ascii c)%nat && (nat_of_ascii c <=? 90)%nat) eqn:E; [|exact E].
  apply andb_true_iff in E as [E1 E]. apply Nat.leb_le in E1, E.
  unfold is_upper. rewrite nat_ascii_embedding by lia.
  apply andb_false_iff. right. apply Nat.leb_gt. lia.
Qed.

Lemma has_upper_env_key name : has_upper (env_key name) = false.
Proof.
  unfold env_key. induction name as [|c name IH]; [reflexivity|]. simpl.
  rewrite IH, orb_false_r. destruct (Ascii.eqb (lower_ascii c) "_"%char); [reflexivity|].
  apply is_upper_lower.
Qed.

Lemma has_upper_prefix a b : String.prefix a b = true -> has_upper a = true -> has_upper b = true.
Proof.
  revert b. induction a as [|c a IH]; intros b Hp Hu; [discriminate|].
  destruct b as [|c' b]; [discriminate|]. simpl in Hp.
  destruct (ascii_dec c c') as [<-|]; [|discriminate].
  simpl in Hu |- *. apply orb_true_iff in Hu as [Hu|Hu]; [rewrite Hu; reflexivity|].
  rewrite (IH _ Hp Hu). apply orb_true_r.
Qed.

Lemma has_upper_app a b : has_upper a = true -> has_upper (a ++ b) = true.
Proof.
  induction a as [|c a IH]; intros H; [discriminate|]. simpl in H |- *.
  apply orb_true_iff in H as [H|H]; [rewrite H; reflexivity|]. rewrite (IH H). apply orb_true_r.
Qed.

(** ** Extras: the first version's environment source *)

(** In the first version of the package, [NewEnvSource] keeps the prefix's
    case while the keys are lower-cased: with a prefix holding an upper-case
    letter, no variable is selected and the map comes back unchanged. *)
Theorem V1_envSource_upper_prefix p envs config :
  has_upper p = true -> Forall (fun e => has_char "="%char e = true) envs ->
  V1.Override (V1.NewEnvSource p) envs config = Some config.
Proof.
  intros Hp Henv. induction Henv as [|e envs He _ IH]; [reflexivity|].
  simpl. destruct (SplitN2Eq_has_eq _ He) as (name & v & ->).
  destruct (HasPrefix (env_key name) (p ++ ".")) eqn:Hk; [|exact IH].
  exfalso. pose proof (has_upper_prefix _ _ Hk (has_upper_app _ _ Hp)) as Hu.
  rewrite has_upper_env_key in Hu. discriminate.
Qed.

Lemma V1_envSource_upper_prefix_witness :
  has_upper "MY" = true /\ Forall (fun e => has_char "="%char e = true) ["MY_S_VALUE=hello"; "HOME=/root"] /\
  V1.Override (V1.NewEnvSource "MY") ["MY_S_VALUE=hello"; "HOME=/root"] [] = Some [].
Proof.
  assert (H1 : has_upper "MY" = true) by reflexivity.
  assert (H2 : Forall (fun e => has_char "="%char e = true) ["MY_S_VALUE=hello"; "HOME=/root"])
    by (repeat constructor).
  split; [exact H1|]. split; [exact H2|]. exact (V1_envSource_upper_prefix _ _ _ H1 H2).
Defined.

(** ** Durations *)

Lemma leadingInt_digits s : forall x,
  all_digits s = true -> leadingInt s x = None \/ exists v, leadingInt s x = Some (v, EmptyString).
Proof.
  induction s as [|c s IH]; intros x Hd; [right; eexists; reflexivity|].
  simpl in Hd. apply andb_true_iff in Hd as [Hc Hd]. simpl. rewrite Hc.
  destruct (x >? two63 / 10); [left; reflexivity|].
  destruct (x * 10 + digit_val c >? two63); [left; reflexivity|]. exact (IH _ Hd).
Qed.

Lemma digit_not_sign c : is_digit c = true -> Ascii.eqb c "-"%char = false /\ Ascii.eqb c "+"%char = false.
Proof.
  intros H. split; destruct (Ascii.eqb c _) eqn:E; auto; apply Ascii.eqb_eq in E; subst; discriminate.
Qed.

Lemma ParseDuration_no_unit s : all_digits s = true -> s <> "" -> s <> "0" -> ParseDuration s = None.
Proof.
  intros Hd Hne H0. destruct s as [|c s']; [congruence|].
  pose proof Hd as Hd'. simpl in Hd'. apply andb_true_iff in Hd' as [Hc _].
  destruct (digit_not_sign _ Hc) as [Hm Hp].
  unfold ParseDuration. rewrite Hm, Hp.
  replace (String.eqb (String c s') "0") with false by (symmetry; apply String.eqb_neq; exact H0).
  change (String.eqb (String c s') "") with false. cbv iota beta.
  destruct (leadingInt_digits (String c s') 0 Hd) as [E|[v E]];
    cbn [pd_loop String.length]; rewrite Hc, orb_true_r; cbn [negb]; rewrite E; reflexivity.
Qed.

Lemma ParseDuration_neg s d :
  ~ (exists s', s = ("-" ++ s')%string \/ s = ("+" ++ s')%string) ->
  ParseDuration s = Some d -> ParseDuration ("-" ++ s) = Some (- d).
Proof.
  intros Hs H. destruct s as [|c s']; [discriminate|].
  assert (Hm : Ascii.eqb c "-"%char = false).
  { destruct (Ascii.eqb c "-"%char) eqn:E; [|reflexivity]. apply Ascii.eqb_eq in E. subst.
    exfalso. apply Hs. exists s'. left. reflexivity. }
  assert (Hp : Ascii.eqb c "+"%char = false).
  { destruct (Ascii.eqb c "+"%char) eqn:E; [|reflexivity]. apply Ascii.eqb_eq in E. subst.
    exfalso. apply Hs. exists s'. right. reflexivity. }
  unfold ParseDuration in H |- *. rewrite Hm, Hp in H. cbv iota beta in H.
  cbn [append]. set (m := Ascii.eqb "-"%char "-"%char). vm_compute in m. subst m. cbv iota beta.
  destruct (String.eqb (String c s') "0"); [injection H as <-; reflexivity|].
  destruct (String.eqb (String c s') ""); [discriminate|].
  destruct (pd_loop _ (String c s') 0) as [d'|]; [|discriminate].
  destruct (d' >? two63 - 1); [discriminate|]. injection H as <-. reflexivity.
Qed.

(** ** Extras: [decodeHook] *)

Lemma decodeHook_string s :
  decodeHook string_t duration_t (mkIface string_t (VString s)) =
  match ParseDuration s with
  | Some d => Ret (mkIface duration_t (VNumber d), None)
  | None => Ret (mkIface duration_t (VNumber 0), Some ("time: invalid duration " ++ s))
  end.
Proof. reflexivity. Qed.

(** A duration string made of digits only, such as ["90"], has no unit and
    fails to decode into a [time.Duration]; only ["0"] is accepted. *)
Theorem decodeHook_no_unit s :
  all_digits s = true -> s <> "" -> s <> "0" ->
  exists e, decodeHook string_t duration_t (mkIface string_t (VString s)) = Ret (mkIface duration_t (VNumber 0), Some e).
Proof.
  intros Hd Hne H0. rewrite decodeHook_string, (ParseDuration_no_unit _ Hd Hne H0). eauto.
Qed.

Lemma decodeHook_no_unit_witness :
  all_digits "90" = true /\ "90" <> "" /\ "90" <> "0" /\
  exists e, decodeHook string_t duration_t (mkIface string_t (VString "90")) =
              Ret (mkIface duration_t (VNumber 0), Some e).
Proof.
  assert (H1 : all_digits "90" = true) by reflexivity.
  assert (H2 : "90" <> "") by discriminate.
  assert (H3 : "90" <> "0") by discriminate.
  split; [exact H1|]. split; [exact H2|]. split; [exact H3|]. exact (decodeHook_no_unit _ H1 H2 H3).
Defined.

(** A leading minus sign negates a duration: if a string without a sign
    decodes to [d], the same string after ["-"] decodes to [-d]. *)
Theorem decodeHook_negative s d :
  ~ (exists s', s = ("-" ++ s')%string \/ s = ("+" ++ s')%string) ->
  decodeHook string_t duration_t (mkIface string_t (VString s)) = Ret (mkIface duration_t (VNumber d), None) ->
  decodeHook string_t duration_t (mkIface string_t (VString ("-" ++ s))) =
    Ret (mkIface duration_t (VNumber (- d)), None).
Proof.
  intros Hs H. rewrite decodeHook_string in H |- *.
  destruct (ParseDuration s) as [d'|] eqn:E; [|discriminate].
  injection H as <-. rewrite (ParseDuration_neg _ _ Hs E). reflexivity.
Qed.

Lemma decodeHook_negative_witness :
  ~ (exists s', "1m30s" = ("-" ++ s')%string \/ "1m30s" = ("+" ++ s')%string) /\
  decodeHook string_t duration_t (mkIface string_t (VString "1m30s")) =
    Ret (mkIface duration_t (VNumber 90000000000), None) /\
  decodeHook string_t duration_t (mkIface string_t (VString ("-" ++ "1m30s"))) =
    Ret (mkIface duration_t (VNumber (- 90000000000)), None).
Proof.
  assert (H1 : ~ (exists s', "1m30s" = ("-" ++ s')%string \/ "1m30s" = ("+" ++ s')%string))
    by (intros [s' [H|H]]; discriminate H).
  assert (H2 : decodeHook string_t duration_t (mkIface string_t (VString "1m30s")) =
                 Ret (mkIface duration_t (VNumber 90000000000), None)) by (vm_compute; reflexivity).
  split; [exact H1|]. split; [exact H2|]. exact (decodeHook_negative _ _ H1 H2).
Defined.
